(** * The particle system of the Koridor landing page (assets/js/particles.js)

    A shallow embedding of the classes [Particle] and [ParticleSystem] and of
    the configuration object [PARTICLE_CONFIG], followed by the properties of
    the simulation loop.

    Number model.  JavaScript numbers are modelled as real numbers: the
    arithmetic of the source is read exactly, without rounding, overflow or
    NaN.  [Math.sqrt], [Math.cos], [Math.sin], [Math.PI], [Math.max] and
    [Math.min] are the functions of the real-number library; [Math.atan2] is
    defined below from [atan] by its quadrant cases.

    A division by zero has no meaning in this model; none occurs on a path
    that the code takes, since a radius or a connection distance is only
    divided by after a distance has been found to be below it, except for
    [1 / explosion.lifetime], where the statements take the lifetime to be
    positive.

    Object model.  [Particle] instances are mutable objects that are shared by
    reference (the array [this.particles] and the [connections] of other
    particles point to the same object).  They live in a store, a list indexed
    by address; an address is never reused. *)

From Stdlib Require Import Reals Lra Lia ZArith String.
From stdpp Require Import base list sorting.

Local Open Scope R_scope.

(** ** Numbers *)

#[global] Instance Rlt_decision : RelDecision Rlt := Rlt_dec.
#[global] Instance Rle_decision : RelDecision Rle := Rle_dec.
#[global] Instance Rgt_decision : RelDecision Rgt := Rgt_dec.
#[global] Instance R_inhabited : Inhabited R := populate 0.

(** [Math.atan2(y, x)]: the angle of the vector [(x, y)], in (-PI, PI]. *)
Definition atan2 (y x : R) : R :=
  if bool_decide (0 < x) then atan (y / x)
  else if bool_decide (x < 0) then
    if bool_decide (0 <= y) then atan (y / x) + PI else atan (y / x) - PI
  else if bool_decide (0 < y) then PI / 2
  else if bool_decide (y < 0) then - (PI / 2)
  else 0.

(** [Math.floor], with an integer result. *)
Definition floor (r : R) : Z := Int_part r.

(** [a[i]] for an integer [i]: [undefined] outside of the array. *)
Definition index {A} (a : list A) (i : Z) : option A :=
  if (i <? 0)%Z then None else a !! Z.to_nat i.

(** [Array.prototype.slice(start)] with one argument: a negative [start]
    counts from the end, and the resulting index is clipped to the array. *)
Definition slice {A} (start : Z) (a : list A) : list A :=
  let len := Z.of_nat (length a) in
  let k := if (start <? 0)%Z then Z.max (len + start) 0 else Z.min start len in
  drop (Z.to_nat k) a.

(** ** Configuration *)

(** The object [PARTICLE_CONFIG]; a nested field [a.b] is named [a_b]. *)
Record Config := {
  particleCount : nat;
  connectionDistance : R;
  particleSize_min : R;
  particleSize_max : R;
  colors : list string;
  physics_gravity : R;
  physics_friction : R;
  physics_bounce : R;
  mouse_attractionRadius : R;
  mouse_repulsionRadius : R;
  mouse_attractionForce : R;
  mouse_repulsionForce : R;
  explosion_particleCount : nat;
  explosion_speed : R;
  explosion_lifetime : R
}.

Definition PARTICLE_CONFIG : Config := {|
  particleCount := 50;
  connectionDistance := 150;
  particleSize_min := 1;
  particleSize_max := 4;
  colors := ["#2B2B2B"; "#8B7355"; "#D0C9BC"; "#707070"]%string;
  physics_gravity := 5 / 100;
  physics_friction := 99 / 100;
  physics_bounce := 8 / 10;
  mouse_attractionRadius := 100;
  mouse_repulsionRadius := 50;
  mouse_attractionForce := 2 / 100;
  mouse_repulsionForce := 1 / 10;
  explosion_particleCount := 20;
  explosion_speed := 5;
  explosion_lifetime := 1000
|}.

(** ** Objects *)

(** The address of a [Particle] object in the store. *)
Abbreviation loc := nat (only parsing).

(** The object literal [{ particle: p2, distance: distance }]. *)
Module Connection.
Record t := mk {
  particle : loc;
  distance : R
}.
End Connection.

(** The calls made on a [CanvasRenderingContext2D], property assignments
    included, in the order in which they are made. *)
Inductive CanvasOp :=
| ClearRect (x y w h : R)
| Save
| Restore
| SetGlobalAlpha (a : R)
| SetFillStyle (c : option string)
| SetStrokeStyle (c : string)
| SetLineWidth (w : R)
| BeginPath
| Arc (x y r a0 a1 : R)
| Fill
| MoveTo (x y : R)
| LineTo (x y : R)
| Stroke.

Module Particle.

Record t := mk {
  x : R;
  y : R;
  vx : R;
  vy : R;
  size : R;
  color : option string;   (* [None]: [undefined], from an empty palette *)
  alpha : R;
  life : R;
  decay : R;
  connections : list Connection.t
}.

Definition set_vx (v : R) (p : t) : t :=
  mk (x p) (y p) v (vy p) (size p) (color p) (alpha p) (life p) (decay p) (connections p).
Definition set_vy (v : R) (p : t) : t :=
  mk (x p) (y p) (vx p) v (size p) (color p) (alpha p) (life p) (decay p) (connections p).
Definition set_life (v : R) (p : t) : t :=
  mk (x p) (y p) (vx p) (vy p) (size p) (color p) (alpha p) v (decay p) (connections p).
Definition set_decay (v : R) (p : t) : t :=
  mk (x p) (y p) (vx p) (vy p) (size p) (color p) (alpha p) (life p) v (connections p).
Definition set_connections (c : list Connection.t) (p : t) : t :=
  mk (x p) (y p) (vx p) (vy p) (size p) (color p) (alpha p) (life p) (decay p) c.

Section Methods.
Variable cfg : Config.

(** [constructor(x, y)], given the five draws of [Math.random()] it
    makes, in order: for [vx], [vy], [size], [color] and [decay]. *)
Definition constructor (x0 y0 : R) (r1 r2 r3 r4 r5 : R) : t := {|
  x := x0;
  y := y0;
  vx := (r1 - 5 / 10) * 2;
  vy := (r2 - 5 / 10) * 2;
  size := particleSize_min cfg + r3 * (particleSize_max cfg - particleSize_min cfg);
  color := index (colors cfg) (floor (r4 * INR (length (colors cfg))));
  alpha := 1;
  life := 1;
  decay := 5 / 1000 + r5 * (5 / 1000);
  connections := []
|}.

(** [update()], with the current [window.innerWidth] and
    [window.innerHeight]. *)
Definition update (innerWidth innerHeight : R) (p : t) : t :=
  let vy1 := vy p + physics_gravity cfg in
  let vx2 := vx p * physics_friction cfg in
  let vy2 := vy1 * physics_friction cfg in
  let x1 := x p + vx2 in
  let y1 := y p + vy2 in
  let life1 := life p - decay p in
  let alpha1 := Rmax 0 life1 in
  let '(vx3, x2) :=
    if bool_decide (x1 < 0) || bool_decide (x1 > innerWidth)
    then (vx2 * - physics_bounce cfg, Rmax 0 (Rmin innerWidth x1))
    else (vx2, x1) in
  let '(vy3, y2) :=
    if bool_decide (y1 < 0) || bool_decide (y1 > innerHeight)
    then (vy2 * - physics_bounce cfg, Rmax 0 (Rmin innerHeight y1))
    else (vy2, y1) in
  mk x2 y2 vx3 vy3 (size p) (color p) alpha1 life1 (decay p) (connections p).

(** [draw(ctx)]: the calls it makes on [ctx]. *)
Definition draw (p : t) : list CanvasOp :=
  [Save; SetGlobalAlpha (alpha p); SetFillStyle (color p); BeginPath;
   Arc (x p) (y p) (size p) 0 (PI * 2); Fill; Restore].

(** [isWithinRadius(x, y, radius)]. *)
Definition isWithinRadius (x0 y0 radius : R) (p : t) : bool :=
  let dx := x p - x0 in
  let dy := y p - y0 in
  bool_decide (sqrt (dx * dx + dy * dy) < radius).

(** [applyForce(fx, fy)]. *)
Definition applyForce (fx fy : R) (p : t) : t :=
  set_vy (vy p + fy) (set_vx (vx p + fx) p).

(** [isDead()]. *)
Definition isDead (p : t) : bool := bool_decide (alpha p <= 0).

End Methods.

#[global] Instance inhabited : Inhabited t :=
  populate (mk 0 0 0 0 0 None 0 0 0 []).

End Particle.

(** ** Program state *)

(** Everything the script reads or writes: the store of [Particle] objects,
    the fields of the one [ParticleSystem] instance, the window size, the
    source of [Math.random()] and the queue of [requestAnimationFrame]. *)
Record World := mkWorld {
  heap : list Particle.t;
  (* fields of the ParticleSystem instance *)
  particles : list loc;
  mouseX : R;
  mouseY : R;
  isMouseOver : bool;
  lastMouseX : R;
  lastMouseY : R;
  ctx : option (list CanvasOp);  (* [None]: [getContext('2d')] gave [null] *)
  canvas_width : R;
  canvas_height : R;
  (* window.innerWidth, window.innerHeight *)
  innerWidth : R;
  innerHeight : R;
  (* Math.random(): the n-th draw is [random_src n] *)
  random_src : nat -> R;
  random_idx : nat;
  (* callbacks registered by requestAnimationFrame and not yet run *)
  pending : nat
}.

Definition set_heap (h : list Particle.t) (w : World) : World :=
  mkWorld h (particles w) (mouseX w) (mouseY w) (isMouseOver w) (lastMouseX w)
    (lastMouseY w) (ctx w) (canvas_width w) (canvas_height w) (innerWidth w)
    (innerHeight w) (random_src w) (random_idx w) (pending w).
Definition set_particles (a : list loc) (w : World) : World :=
  mkWorld (heap w) a (mouseX w) (mouseY w) (isMouseOver w) (lastMouseX w)
    (lastMouseY w) (ctx w) (canvas_width w) (canvas_height w) (innerWidth w)
    (innerHeight w) (random_src w) (random_idx w) (pending w).
Definition set_mouse (mx my lx ly : R) (w : World) : World :=
  mkWorld (heap w) (particles w) mx my (isMouseOver w) lx ly (ctx w)
    (canvas_width w) (canvas_height w) (innerWidth w) (innerHeight w)
    (random_src w) (random_idx w) (pending w).
Definition set_isMouseOver (b : bool) (w : World) : World :=
  mkWorld (heap w) (particles w) (mouseX w) (mouseY w) b (lastMouseX w)
    (lastMouseY w) (ctx w) (canvas_width w) (canvas_height w) (innerWidth w)
    (innerHeight w) (random_src w) (random_idx w) (pending w).
Definition set_ctx (c : option (list CanvasOp)) (w : World) : World :=
  mkWorld (heap w) (particles w) (mouseX w) (mouseY w) (isMouseOver w)
    (lastMouseX w) (lastMouseY w) c (canvas_width w) (canvas_height w)
    (innerWidth w) (innerHeight w) (random_src w) (random_idx w) (pending w).
Definition set_canvas_size (cw ch : R) (w : World) : World :=
  mkWorld (heap w) (particles w) (mouseX w) (mouseY w) (isMouseOver w)
    (lastMouseX w) (lastMouseY w) (ctx w) cw ch (innerWidth w) (innerHeight w)
    (random_src w) (random_idx w) (pending w).
Definition set_window_size (iw ih : R) (w : World) : World :=
  mkWorld (heap w) (particles w) (mouseX w) (mouseY w) (isMouseOver w)
    (lastMouseX w) (lastMouseY w) (ctx w) (canvas_width w) (canvas_height w)
    iw ih (random_src w) (random_idx w) (pending w).
Definition set_random_idx (i : nat) (w : World) : World :=
  mkWorld (heap w) (particles w) (mouseX w) (mouseY w) (isMouseOver w)
    (lastMouseX w) (lastMouseY w) (ctx w) (canvas_width w) (canvas_height w)
    (innerWidth w) (innerHeight w) (random_src w) i (pending w).
Definition set_pending (n : nat) (w : World) : World :=
  mkWorld (heap w) (particles w) (mouseX w) (mouseY w) (isMouseOver w)
    (lastMouseX w) (lastMouseY w) (ctx w) (canvas_width w) (canvas_height w)
    (innerWidth w) (innerHeight w) (random_src w) (random_idx w) n.

(** Reading and writing the object at an address. *)
Definition deref (l : loc) (w : World) : Particle.t := heap w !!! l.
Definition modify (l : loc) (f : Particle.t -> Particle.t) (w : World) : World :=
  set_heap (alter f l (heap w)) w.

(** [Math.random()]. *)
Definition Math_random (w : World) : R * World :=
  (random_src w (random_idx w), set_random_idx (S (random_idx w)) w).

(** ** Exceptions *)

Inductive Exn := TypeError.

Inductive Res (A : Type) :=
| Ok (a : A) (w : World)
| Throw (e : Exn) (w : World).
Arguments Ok {A} a w.
Arguments Throw {A} e w.

(** A computation that runs to a value or throws; the state reached is kept
    in both cases, as mutations made before a throw are not undone. *)
Definition M (A : Type) : Type := World -> Res A.

#[global] Instance M_ret : MRet M := fun A a w => Ok a w.
#[global] Instance M_bind : MBind M := fun A B f m w =>
  match m w with
  | Ok a w' => f a w'
  | Throw e w' => Throw e w'
  end.

Definition get : M World := fun w => Ok w w.
Definition lift (f : World -> World) : M unit := fun w => Ok tt (f w).

(** One call (or property assignment) on [this.ctx]; on [null] it throws. *)
Definition ctx_call (op : CanvasOp) : M unit := fun w =>
  match ctx w with
  | None => Throw TypeError w
  | Some log => Ok tt (set_ctx (Some (log ++ [op])) w)
  end.

(** [requestAnimationFrame(cb)]. *)
Definition requestAnimationFrame : M unit :=
  lift (fun w => set_pending (S (pending w)) w).

(** ** Arrays and loops *)

(** [a.forEach(cb)] with a callback that only mutates the state. *)
Definition forEach {A} (a : list A) (cb : A -> World -> World) (w : World) : World :=
  foldl (fun w x => cb x w) w a.

(** [a.forEach(cb)] with a callback that may throw. *)
Fixpoint forEachM {A} (a : list A) (cb : A -> M unit) : M unit :=
  match a with
  | [] => mret tt
  | x :: a' => cb x ;; forEachM a' cb
  end.

(** [a.filter(cb)]: the callback runs once per element, in order, and may
    mutate the state; the elements for which it answers [true] are kept. *)
Fixpoint Array_filter {A} (a : list A) (cb : A -> World -> bool * World)
    (w : World) : list A * World :=
  match a with
  | [] => ([], w)
  | x :: a' =>
      let '(keep, w1) := cb x w in
      let '(kept, w2) := Array_filter a' cb w1 in
      (if keep then x :: kept else kept, w2)
  end.

(** [for (let i = lo; i < hi; i++) body]. *)
Definition for_range (lo hi : nat) (body : nat -> World -> World) (w : World) : World :=
  foldl (fun w i => body i w) w (seq lo (hi - lo)).

(** ** The class ParticleSystem *)

Module ParticleSystem.

Section Methods.
Variable cfg : Config.

(** [new Particle(x, y)]: draws the five random numbers, allocates the
    object and returns its address. *)
Definition new_Particle (x y : R) (w : World) : loc * World :=
  let '(r1, w) := Math_random w in
  let '(r2, w) := Math_random w in
  let '(r3, w) := Math_random w in
  let '(r4, w) := Math_random w in
  let '(r5, w) := Math_random w in
  (length (heap w),
   set_heap (heap w ++ [Particle.constructor cfg x y r1 r2 r3 r4 r5]) w).

(** One round of the loop of [initParticles()]. *)
Definition initParticles_round (w : World) : World :=
  let '(r, w) := Math_random w in
  let x := r * innerWidth w in
  let '(r, w) := Math_random w in
  let y := r * innerHeight w in
  let '(l, w) := new_Particle x y w in
  set_particles (particles w ++ [l]) w.

(** [initParticles()]. *)
Definition initParticles (w : World) : World :=
  for_range 0 (particleCount cfg) (fun _ w => initParticles_round w) w.

(** [constructor(canvas)], from the context that [canvas.getContext('2d')]
    returns, the size of the canvas, the window size and the random
    source.  The listeners of [setupEventListeners()] are the functions
    [mousemove], [mouseleave], [mouseenter], [click] and [resize] below. *)
Definition constructor (getContext : option (list CanvasOp))
    (cw ch iw ih : R) (src : nat -> R) (idx : nat) : World :=
  initParticles
    (mkWorld [] [] 0 0 false 0 0 getContext cw ch iw ih src idx 0).

(** One round of the loop of [createExplosion(x, y)]: the array
    [explosionParticles] and the state, before and after round [i]. *)
Definition createExplosion_round (x y : R) (acc : list loc * World) (i : nat)
    : list loc * World :=
  let '(explosionParticles, w) := acc in
  let angle := PI * 2 * INR i / INR (explosion_particleCount cfg) in
  let '(r, w) := Math_random w in
  let speed := explosion_speed cfg * (5 / 10 + r * (5 / 10)) in
  let '(particle, w) := new_Particle x y w in
  let w := modify particle (Particle.set_vx (cos angle * speed)) w in
  let w := modify particle (Particle.set_vy (sin angle * speed)) w in
  let w := modify particle (Particle.set_life 1) w in
  let w := modify particle (Particle.set_decay (1 / explosion_lifetime cfg)) w in
  (explosionParticles ++ [particle], w).

(** [createExplosion(x, y)]. *)
Definition createExplosion (x y : R) (w : World) : World :=
  let '(explosionParticles, w) :=
    foldl (createExplosion_round x y) ([], w)
      (seq 0 (explosion_particleCount cfg)) in
  let w := set_particles (particles w ++ explosionParticles) w in
  if bool_decide (particleCount cfg * 2 < length (particles w))%nat
  then set_particles (slice (- Z.of_nat (particleCount cfg) * 2) (particles w)) w
  else w.

(** [handleResize()]. *)
Definition handleResize (w : World) : World :=
  set_canvas_size (innerWidth w) (innerHeight w) w.

(** [applyMouseForces()]. *)
Definition applyMouseForces (w : World) : World :=
  if negb (isMouseOver w) then w else
  forEach (particles w) (fun particle w =>
    let dx := mouseX w - Particle.x (deref particle w) in
    let dy := mouseY w - Particle.y (deref particle w) in
    let distance := sqrt (dx * dx + dy * dy) in
    if bool_decide (distance < mouse_repulsionRadius cfg) then
      let force := mouse_repulsionForce cfg
                   * (1 - distance / mouse_repulsionRadius cfg) in
      let angle := atan2 dy dx in
      modify particle (Particle.applyForce (cos angle * force) (sin angle * force)) w
    else if bool_decide (distance < mouse_attractionRadius cfg) then
      let force := mouse_attractionForce cfg
                   * (distance / mouse_attractionRadius cfg) in
      let angle := atan2 dy dx in
      modify particle (Particle.applyForce (cos angle * force) (sin angle * force)) w
    else w) w.

(** The body of the inner loop of [updateConnections()], for the indices
    [i] and [j]. *)
Definition connect (i j : nat) (w : World) : World :=
  let p1 := particles w !!! i in
  let p2 := particles w !!! j in
  let dx := Particle.x (deref p1 w) - Particle.x (deref p2 w) in
  let dy := Particle.y (deref p1 w) - Particle.y (deref p2 w) in
  let distance := sqrt (dx * dx + dy * dy) in
  if bool_decide (distance < connectionDistance cfg) then
    modify p1 (fun p =>
      Particle.set_connections
        (Particle.connections p ++ [Connection.mk p2 distance]) p) w
  else w.

(** [updateConnections()]. *)
Definition updateConnections (w : World) : World :=
  let w := forEach (particles w) (fun particle w =>
             modify particle (Particle.set_connections []) w) w in
  for_range 0 (length (particles w)) (fun i w =>
    for_range (i + 1) (length (particles w)) (fun j w => connect i j w) w) w.

(** [drawConnections()]. *)
Definition drawConnections : M unit :=
  ctx_call Save;;
  ctx_call (SetStrokeStyle "rgba(139, 115, 85, 0.1)");;
  ctx_call (SetLineWidth (5 / 10));;
  w ← get;
  forEachM (particles w) (fun particle =>
    w ← get;
    forEachM (Particle.connections (deref particle w)) (fun connection =>
      w ← get;
      let opacity := 1 - Connection.distance connection / connectionDistance cfg in
      ctx_call (SetGlobalAlpha
                  (opacity * (3 / 10) * Particle.alpha (deref particle w)));;
      ctx_call BeginPath;;
      ctx_call (MoveTo (Particle.x (deref particle w))
                       (Particle.y (deref particle w)));;
      ctx_call (LineTo (Particle.x (deref (Connection.particle connection) w))
                       (Particle.y (deref (Connection.particle connection) w)));;
      ctx_call Stroke));;
  ctx_call Restore.

(** The callback of the filter in [animate()]:
    [particle => { particle.update(); return !particle.isDead(); }]. *)
Definition step_callback (particle : loc) (w : World) : bool * World :=
  let w := modify particle
             (Particle.update cfg (innerWidth w) (innerHeight w)) w in
  (negb (Particle.isDead (deref particle w)), w).

(** The statement [this.particles = this.particles.filter(...)] of
    [animate()]: the step of the field. *)
Definition step (w : World) : World :=
  let '(kept, w) := Array_filter (particles w) step_callback w in
  set_particles kept w.

(** The statement [this.particles.forEach(particle =>
    { particle.draw(this.ctx); })] of [animate()]. *)
Definition drawParticles : M unit :=
  w ← get;
  forEachM (particles w) (fun particle =>
    w ← get;
    forEachM (Particle.draw (deref particle w)) ctx_call).

(** [animate()]. *)
Definition animate : M unit :=
  w ← get;
  ctx_call (ClearRect 0 0 (canvas_width w) (canvas_height w));;
  lift applyMouseForces;;
  lift step;;
  lift updateConnections;;
  drawConnections;;
  drawParticles;;
  requestAnimationFrame.

(** [start()]. *)
Definition start : M unit :=
  lift handleResize;;
  animate.

(** [stop()]: its body is empty. *)
Definition stop : M unit := mret tt.

(** [initParticleSystem()]: the canvas is created (a new canvas is 300 by
    150), the system is constructed and started.  An exception of [start()]
    leaves the function. *)
Definition initParticleSystem (getContext : option (list CanvasOp))
    (iw ih : R) (src : nat -> R) (idx : nat) : Res unit :=
  start (constructor getContext 300 150 iw ih src idx).

(** The listeners registered by [setupEventListeners()]. *)
Definition mousemove (clientX clientY : R) (w : World) : World :=
  set_isMouseOver true (set_mouse clientX clientY (mouseX w) (mouseY w) w).
Definition mouseleave (w : World) : World := set_isMouseOver false w.
Definition mouseenter (w : World) : World := set_isMouseOver true w.
Definition click (clientX clientY : R) (w : World) : World :=
  createExplosion clientX clientY w.
(** The window takes its new size, then the listener runs. *)
Definition resize (iw ih : R) (w : World) : World :=
  handleResize (set_window_size iw ih w).

(** One animation frame of the browser: the callbacks registered so far
    are taken off the queue and run; an exception that leaves a callback
    is reported and the state it reached stays. *)
Definition run_callback (w : World) : World :=
  match animate w with
  | Ok _ w' => w'
  | Throw _ w' => w'
  end.
Definition frame (w : World) : World :=
  Nat.iter (pending w) run_callback (set_pending 0 w).


End Methods.
End ParticleSystem.

(** ** Notions used in the statements *)

(** The array [this.particles] holds each object once and only allocated
    addresses. *)
Definition valid (w : World) : Prop :=
  NoDup (particles w)
  /\ Forall (fun l => (l < length (heap w))%nat) (particles w).

(** The array is ordered by age: addresses are handed out in increasing
    order, so an older particle has a smaller address than a younger one. *)
Definition oldest_first (w : World) : Prop :=
  StronglySorted lt (particles w)
  /\ Forall (fun l => (l < length (heap w))%nat) (particles w).

(** A particle lies in the viewport [[0, innerWidth] x [0, innerHeight]]. *)
Definition in_bounds (w : World) (p : Particle.t) : Prop :=
  (0 <= Particle.x p <= innerWidth w) /\ (0 <= Particle.y p <= innerHeight w).

(** The window is [iw] by [ih], not negative, and every particle of the
    field lies in it. *)
Definition in_viewport (iw ih : R) (w : World) : Prop :=
  valid w
  /\ (innerWidth w = iw /\ innerHeight w = ih)
  /\ (0 <= iw /\ 0 <= ih)
  /\ forall l, l ∈ particles w -> in_bounds w (deref l w).

(** The physical constants keep a speed of at most [B] below [B]: the
    friction takes off at least what gravity and the pointer add. *)
Definition velocity_bound (cfg : Config) (B : R) : Prop :=
  0 <= physics_friction cfg
  /\ 0 <= physics_gravity cfg
  /\ 0 <= physics_bounce cfg <= 1
  /\ (0 < mouse_repulsionRadius cfg /\ 0 < mouse_attractionRadius cfg)
  /\ (0 <= mouse_repulsionForce cfg /\ 0 <= mouse_attractionForce cfg)
  /\ 1 <= B
  /\ (B + Rmax (mouse_repulsionForce cfg) (mouse_attractionForce cfg)
         + physics_gravity cfg) * physics_friction cfg <= B.

(** No particle of the field is faster than [B] in either direction. *)
Definition slower_than (B : R) (w : World) : Prop :=
  valid w
  /\ forall l, l ∈ particles w ->
       Rabs (Particle.vx (deref l w)) <= B /\ Rabs (Particle.vy (deref l w)) <= B.

(** The store after [f] has been applied to the objects at [ls], in order. *)
Definition alter_all (f : Particle.t -> Particle.t) (ls : list loc)
    (h : list Particle.t) : list Particle.t :=
  foldl (fun h l => alter f l h) h ls.

(** [p'] is [p] up to its [connections]. *)
Definition only_connections (p p' : Particle.t) : Prop :=
  p' = Particle.set_connections (Particle.connections p') p.

Definition heap_only_connections (h h' : list Particle.t) : Prop :=
  length h' = length h /\ forall l, only_connections (h !!! l) (h' !!! l).

(** [connections.push(c1, ..., cn)] on one object. *)
Definition push (cs : list Connection.t) (p : Particle.t) : Particle.t :=
  Particle.set_connections (Particle.connections p ++ cs) p.

(** The Euclidean distance between the objects at [a] and [b]. *)
Definition dist (h : list Particle.t) (a b : loc) : R :=
  let dx := Particle.x (h !!! a) - Particle.x (h !!! b) in
  let dy := Particle.y (h !!! a) - Particle.y (h !!! b) in
  sqrt (dx * dx + dy * dy).

(** The particle at [a] has a connection to the particle at [b], recorded
    with the distance [d]. *)
Definition connected (w : World) (a b : loc) (d : R) : Prop :=
  Connection.mk b d ∈ Particle.connections (deref a w).

(** The connections are recorded in both directions, with one distance. *)
Definition symmetric_connections (w : World) : Prop :=
  forall a b d, connected w a b d -> connected w b a d.

Section Notions.
Variable cfg : Config.

(** The particle survives the next step: it is not dead after [update()]. *)
Definition survives (w : World) (l : loc) : bool :=
  negb (Particle.isDead
          (Particle.update cfg (innerWidth w) (innerHeight w) (deref l w))).

(** What the callback of [applyMouseForces()] does to one particle, for a
    pointer at [(mx, my)]. *)
Definition pointer_force (mx my : R) (p : Particle.t) : Particle.t :=
  let dx := mx - Particle.x p in
  let dy := my - Particle.y p in
  let distance := sqrt (dx * dx + dy * dy) in
  if bool_decide (distance < mouse_repulsionRadius cfg) then
    let force := mouse_repulsionForce cfg
                 * (1 - distance / mouse_repulsionRadius cfg) in
    let angle := atan2 dy dx in
    Particle.applyForce (cos angle * force) (sin angle * force) p
  else if bool_decide (distance < mouse_attractionRadius cfg) then
    let force := mouse_attractionForce cfg
                 * (distance / mouse_attractionRadius cfg) in
    let angle := atan2 dy dx in
    Particle.applyForce (cos angle * force) (sin angle * force) p
  else p.

(** The object that round [i] of [createExplosion(x, y)] leaves in the store,
    when the first draw of the call is the draw number [idx] of [src]: a
    round makes six draws. *)
Definition explosion_particle (x y : R) (src : nat -> R) (idx i : nat) : Particle.t :=
  let k := (idx + 6 * i)%nat in
  let angle := PI * 2 * INR i / INR (explosion_particleCount cfg) in
  let speed := explosion_speed cfg * (5 / 10 + src k * (5 / 10)) in
  Particle.set_decay (1 / explosion_lifetime cfg)
    (Particle.set_life 1
      (Particle.set_vy (sin angle * speed)
        (Particle.set_vx (cos angle * speed)
          (Particle.constructor cfg x y (src (k + 1)%nat) (src (k + 2)%nat)
             (src (k + 3)%nat) (src (k + 4)%nat) (src (k + 5)%nat))))).

Definition burst (x y : R) (w : World) (n : nat) : list Particle.t :=
  explosion_particle x y (random_src w) (random_idx w) <$> seq 0 n.

(** The object that round [i] of [initParticles()] allocates: a round makes
    seven draws. *)
Definition initial_particle (iw ih : R) (src : nat -> R) (idx i : nat) : Particle.t :=
  let k := (idx + 7 * i)%nat in
  Particle.constructor cfg (src k * iw) (src (k + 1)%nat * ih)
    (src (k + 2)%nat) (src (k + 3)%nat) (src (k + 4)%nat) (src (k + 5)%nat)
    (src (k + 6)%nat).

(** The connections that the object at [a] gets against the candidates
    [bs], in order. *)
Definition near (h : list Particle.t) (a : loc) (bs : list loc) : list Connection.t :=
  (fun b => Connection.mk b (dist h a b))
    <$> filter (fun b => dist h a b < connectionDistance cfg) bs.

(** Round [i] of the outer loop of [updateConnections()], and its first [k]
    rounds. *)
Definition connect_from (i : nat) (w : World) : World :=
  for_range (i + 1) (length (particles w))
    (fun j w => ParticleSystem.connect cfg i j w) w.

Definition connect_upto (k : nat) (w : World) : World :=
  foldl (fun w i => connect_from i w) w (seq 0 k).

(** The calls that [drawConnections()] makes for one particle and for the
    whole field, and the calls that the drawing of the particles makes. *)
Definition line_ops (w : World) (l : loc) (c : Connection.t) : list CanvasOp :=
  [SetGlobalAlpha ((1 - Connection.distance c / connectionDistance cfg)
                   * (3 / 10) * Particle.alpha (deref l w));
   BeginPath;
   MoveTo (Particle.x (deref l w)) (Particle.y (deref l w));
   LineTo (Particle.x (deref (Connection.particle c) w))
          (Particle.y (deref (Connection.particle c) w));
   Stroke].

Definition connection_ops (w : World) : list CanvasOp :=
  [Save; SetStrokeStyle "rgba(139, 115, 85, 0.1)"; SetLineWidth (5 / 10)]
  ++ (l ← particles w; c ← Particle.connections (deref l w); line_ops w l c)
  ++ [Restore].

Definition particle_ops (w : World) : list CanvasOp :=
  l ← particles w; Particle.draw (deref l w).

(** The state part of a tick: pointer forces, step, connections. *)
Definition tick_state (w : World) : World :=
  ParticleSystem.updateConnections cfg
    (ParticleSystem.step cfg (ParticleSystem.applyMouseForces cfg w)).

End Notions.

(** The state that a computation leaves, thrown or not. *)
Definition state_of {A} (r : Res A) : World :=
  match r with
  | Ok _ w => w
  | Throw _ w => w
  end.

(** What can happen between the construction and an observation, besides
    clicks and resizes: frames of the browser and pointer events. *)
Inductive Input :=
| Frame
| MouseMove (clientX clientY : R)
| MouseLeave
| MouseEnter.

Definition react (cfg : Config) (w : World) (i : Input) : World :=
  match i with
  | Frame => ParticleSystem.frame cfg w
  | MouseMove cx cy => ParticleSystem.mousemove cx cy w
  | MouseLeave => ParticleSystem.mouseleave w
  | MouseEnter => ParticleSystem.mouseenter w
  end.

(** ** Sample states *)

(** A particle at rest at [(x, y)] with the given remaining life, decaying
    by a hundredth per step. *)
Definition resting (x y life : R) : Particle.t :=
  Particle.mk x y 0 0 2 None 1 life (1 / 100) [].

(** A state with the given store, array, pointer, context and pending
    callbacks, in a window of 800 by 600. *)
Definition sample (h : list Particle.t) (ps : list loc) (mx my : R)
    (over : bool) (c : option (list CanvasOp)) (pend : nat) : World :=
  mkWorld h ps mx my over 0 0 c 800 600 800 600 (fun _ => 0) 0 pend.

(** One particle at the origin, the pointer ten pixels to its right. *)
Definition w_pointer : World :=
  sample [resting 0 0 1] [0%nat] 10 0 true (Some []) 0.

(** Two particles ten pixels apart. *)
Definition w_pair : World :=
  sample [resting 0 0 1; resting 10 0 1] [0%nat; 1%nat] 0 0 false (Some []) 0.

(** One particle with a full life and one that dies in the next step. *)
Definition w_dying : World :=
  sample [resting 5 5 1; resting 7 7 (1 / 200)] [0%nat; 1%nat] 0 0 false
    (Some []) 0.

(** One particle at [(500, 10)]. *)
Definition w_wide : World :=
  sample [resting 500 10 1] [0%nat] 0 0 false (Some []) 0.


(** A system whose only particle has left the field, with one frame
    pending. *)
Definition w_removed : World :=
  sample [resting 5 5 1] [] 0 0 false (Some []) 1.

(** A system that has been started twice: two callbacks are pending. *)
Definition w_started_twice : World :=
  sample [resting 5 5 1] [0%nat] 0 0 false (Some []) 2.

(** One particle at [(900, 10)], outside of the window of 800 by 600, with
    a frame pending. *)
Definition w_outside : World :=
  sample [resting 900 10 1] [0%nat] 0 0 false (Some []) 1.

(** ** Events and further notions *)

(** Everything that can happen to the system once it is constructed: a
    frame of the browser or one of the five listeners of
    [setupEventListeners()]. *)
Inductive Event :=
| AnimationFrame
| Mousemove (clientX clientY : R)
| Mouseleave
| Mouseenter
| Click (clientX clientY : R)
| Resize (iw ih : R).

Definition handle (cfg : Config) (w : World) (e : Event) : World :=
  match e with
  | AnimationFrame => ParticleSystem.frame cfg w
  | Mousemove cx cy => ParticleSystem.mousemove cx cy w
  | Mouseleave => ParticleSystem.mouseleave w
  | Mouseenter => ParticleSystem.mouseenter w
  | Click cx cy => ParticleSystem.click cfg cx cy w
  | Resize iw ih => ParticleSystem.resize iw ih w
  end.

(** The depth of the stack of saved drawing states after the calls [ops],
    from the depth [d]; [None] when a [restore()] comes without a [save()]
    before it. *)
Fixpoint stack_depth (d : nat) (ops : list CanvasOp) : option nat :=
  match ops with
  | [] => Some d
  | Save :: ops' => stack_depth (S d) ops'
  | Restore :: ops' =>
      match d with
      | O => None
      | S d' => stack_depth d' ops'
      end
  | _ :: ops' => stack_depth d ops'
  end.

(** The number of connections recorded in the field. *)
Definition connection_count (w : World) : nat :=
  sum_list ((fun l => length (Particle.connections (deref l w))) <$> particles w).

(** The drawing surface has the size of the window. *)
Definition canvas_fits_window (w : World) : Prop :=
  canvas_width w = innerWidth w /\ canvas_height w = innerHeight w.

(** The number of calls among [ops] that [f] recognises. *)
Fixpoint count_calls (f : CanvasOp -> bool) (ops : list CanvasOp) : nat :=
  match ops with
  | [] => 0
  | op :: ops' => (if f op then 1 else 0) + count_calls f ops'
  end.

Definition is_ClearRect (op : CanvasOp) : bool :=
  match op with ClearRect _ _ _ _ => true | _ => false end.
Definition is_Stroke (op : CanvasOp) : bool :=
  match op with Stroke => true | _ => false end.
Definition is_Fill (op : CanvasOp) : bool :=
  match op with Fill => true | _ => false end.

(** What the system knows of the pointer: [mouseX], [mouseY],
    [isMouseOver], [lastMouseX] and [lastMouseY]. *)
Definition pointer_state (w : World) : R * R * bool * (R * R) :=
  (mouseX w, mouseY w, isMouseOver w, (lastMouseX w, lastMouseY w)).

(** What a tick has no business with: the pointer, the sizes of the canvas
    and of the window, and the source of random numbers. *)
Definition surroundings (w : World)
    : (R * R * bool * (R * R)) * (R * R) * (R * R) * ((nat -> R) * nat) :=
  (pointer_state w, (canvas_width w, canvas_height w),
   (innerWidth w, innerHeight w), (random_src w, random_idx w)).


(** * Properties *)

(** Reduction of setters and getters on a state given by its fields. *)
Ltac simpl_world :=
  cbv [modify deref Math_random set_heap set_particles set_mouse
       set_isMouseOver set_ctx set_canvas_size set_window_size set_random_idx
       set_pending heap particles mouseX mouseY isMouseOver lastMouseX
       lastMouseY ctx canvas_width canvas_height innerWidth innerHeight
       random_src random_idx pending] in *.

(** ** The store *)

Lemma set_heap_id w : set_heap (heap w) w = w.
Proof. by destruct w. Qed.

Lemma modify_fix l f w : f (deref l w) = deref l w -> modify l f w = w.
Proof.
  intros Hf. transitivity (set_heap (heap w) w); [|apply set_heap_id].
  unfold modify. f_equal.
  apply list_eq. intros i. rewrite list_lookup_alter.
  case_decide as Hi; [|done]. subst i.
  destruct (heap w !! l) as [p|] eqn:E; [|done]. simpl. f_equal.
  unfold deref in Hf. by rewrite (list_lookup_total_correct _ _ _ E) in Hf.
Qed.

Lemma modify_ext l f g w :
  f (deref l w) = g (deref l w) -> modify l f w = modify l g w.
Proof.
  intros Hfg. unfold modify. f_equal. apply list_alter_ext; [|done].
  intros p E. unfold deref in Hfg.
  by rewrite (list_lookup_total_correct _ _ _ E) in Hfg.
Qed.

Lemma modify_modify l f g w : modify l f (modify l g w) = modify l (f ∘ g) w.
Proof. unfold modify. simpl. rewrite list_alter_alter_eq. by destruct w. Qed.

Lemma alter_snoc (f : Particle.t -> Particle.t) (h : list Particle.t) p :
  alter f (length h) (h ++ [p]) = h ++ [f p].
Proof.
  replace (length h) with (length h + 0)%nat at 1 by lia.
  by rewrite alter_app_r.
Qed.

Section AlterAll.
Variable f : Particle.t -> Particle.t.

Lemma length_alter_all ls h : length (alter_all f ls h) = length h.
Proof.
  revert h. induction ls as [|l ls IH]; intros h; simpl; [done|].
  unfold alter_all in *. simpl. by rewrite IH, length_alter.
Qed.

Lemma alter_all_notin ls h l : l ∉ ls -> alter_all f ls h !!! l = h !!! l.
Proof.
  revert h. induction ls as [|l' ls IH]; intros h Hl; [done|].
  apply not_elem_of_cons in Hl as [Hne Hl].
  unfold alter_all in *. simpl. rewrite IH by done.
  by apply list_lookup_total_alter_ne.
Qed.

Lemma alter_all_in ls h l :
  NoDup ls -> l ∈ ls -> (l < length h)%nat ->
  alter_all f ls h !!! l = f (h !!! l).
Proof.
  revert h. induction ls as [|l' ls IH]; intros h Hnd Hl Hlt.
  - by apply elem_of_nil in Hl.
  - apply NoDup_cons in Hnd as [Hnotin Hnd].
    change (alter_all f (l' :: ls) h) with (alter_all f ls (alter f l' h)).
    apply elem_of_cons in Hl as [-> | Hl].
    + rewrite alter_all_notin by done. by apply list_lookup_total_alter_eq.
    + rewrite IH; [|done|done|by rewrite length_alter].
      rewrite list_lookup_total_alter_ne; [done|]. intros ->. done.
Qed.

End AlterAll.

Lemma forEach_modify (F : World -> Particle.t -> Particle.t)
    (cb : loc -> World -> World) ls w :
  (forall l w, cb l w = modify l (F w) w) ->
  (forall l f w, F (modify l f w) = F w) ->
  forEach ls cb w = set_heap (alter_all (F w) ls (heap w)) w.
Proof.
  intros Hcb HF. revert w. induction ls as [|l ls IH]; intros w.
  - simpl. by rewrite set_heap_id.
  - unfold forEach in *. simpl. rewrite IH, Hcb, HF. unfold alter_all. simpl.
    by destruct w.
Qed.

Lemma filter_ext_in {A} (P Q : A -> Prop) `{!∀ x, Decision (P x)}
    `{!∀ x, Decision (Q x)} (l : list A) :
  (∀ x, x ∈ l -> P x <-> Q x) -> filter P l = filter Q l.
Proof.
  induction l as [|a l IH]; intros Hext; [done|].
  rewrite !filter_cons.
  rewrite IH by (intros x Hx; apply Hext; by right).
  destruct (decide (P a)) as [HP|HP], (decide (Q a)) as [HQ|HQ]; try done.
  - exfalso. apply HQ, Hext; [by left|done].
  - exfalso. apply HP, Hext; [by left|done].
Qed.

Lemma lookup_total_seq_drop {A} `{!Inhabited A} (l : list A) k :
  (l !!!.) <$> seq k (length l - k) = drop k l.
Proof.
  apply list_eq. intros i. rewrite list_lookup_fmap, lookup_drop.
  destruct (decide (i < length l - k)%nat) as [Hi|Hi].
  - rewrite lookup_seq_lt by done. simpl.
    symmetry. apply list_lookup_lookup_total_lt. lia.
  - rewrite lookup_seq_ge by lia. simpl. symmetry. apply lookup_ge_None. lia.
Qed.

(** ** The step of the field *)

Section Step.
Variable cfg : Config.

Lemma Array_filter_step_state ls w :
  (Array_filter ls (ParticleSystem.step_callback cfg) w).2 =
  set_heap (alter_all (Particle.update cfg (innerWidth w) (innerHeight w))
              ls (heap w)) w.
Proof.
  revert w. induction ls as [|l ls IH]; intros w.
  - simpl. by destruct w.
  - simpl. destruct (Array_filter ls _ _) as [kept w2] eqn:E.
    simpl. specialize (IH (modify l (Particle.update cfg (innerWidth w) (innerHeight w)) w)).
    rewrite E in IH. simpl in IH. subst w2. by destruct w.
Qed.

Lemma Array_filter_step_sublist ls w :
  (Array_filter ls (ParticleSystem.step_callback cfg) w).1 `sublist_of` ls.
Proof.
  revert w. induction ls as [|l ls IH]; intros w; simpl; [done|].
  specialize (IH (modify l (Particle.update cfg (innerWidth w) (innerHeight w)) w)).
  destruct (Array_filter ls _ _) as [kept w2]. simpl in *.
  destruct (negb _); by constructor.
Qed.

Lemma Array_filter_step_kept ls w :
  NoDup ls -> Forall (fun l => (l < length (heap w))%nat) ls ->
  (Array_filter ls (ParticleSystem.step_callback cfg) w).1
  = filter (fun l => survives cfg w l) ls.
Proof.
  revert w. induction ls as [|l ls IH]; intros w Hnd Hv; simpl; [done|].
  apply NoDup_cons in Hnd as [Hnotin Hnd].
  apply Forall_cons in Hv as [Hl Hv].
  set (w1 := modify l (Particle.update cfg (innerWidth w) (innerHeight w)) w).
  specialize (IH w1 Hnd).
  destruct (Array_filter ls _ w1) as [kept w2] eqn:E. simpl in *.
  rewrite IH by (by unfold w1; simpl; rewrite length_alter).
  assert (Hfilter : filter (fun l => survives cfg w1 l) ls
                    = filter (fun l => survives cfg w l) ls).
  { apply filter_ext_in. intros l' Hl'. unfold survives, deref, w1. simpl.
    rewrite list_lookup_total_alter_ne; [done|]. intros ->. done. }
  rewrite Hfilter, filter_cons.
  assert (Hhd : negb (Particle.isDead (deref l w1)) = survives cfg w l).
  { unfold survives, deref, w1. simpl.
    by rewrite list_lookup_total_alter_eq. }
  rewrite Hhd.
  destruct (survives cfg w l);
    by rewrite ?decide_True, ?decide_False by (simpl; tauto).
Qed.

Lemma step_eq w :
  ParticleSystem.step cfg w =
  set_particles (Array_filter (particles w) (ParticleSystem.step_callback cfg) w).1
    (set_heap (alter_all (Particle.update cfg (innerWidth w) (innerHeight w))
                 (particles w) (heap w)) w).
Proof.
  unfold ParticleSystem.step.
  pose proof (Array_filter_step_state (particles w) w) as H.
  destruct (Array_filter _ _ _) as [kept w']. simpl in *. by subst w'.
Qed.

Lemma step_heap w :
  heap (ParticleSystem.step cfg w) =
  alter_all (Particle.update cfg (innerWidth w) (innerHeight w))
    (particles w) (heap w).
Proof. by rewrite step_eq. Qed.

Lemma step_particles_sublist w :
  particles (ParticleSystem.step cfg w) `sublist_of` particles w.
Proof. rewrite step_eq. simpl. apply Array_filter_step_sublist. Qed.

Lemma step_particles w :
  valid w ->
  particles (ParticleSystem.step cfg w)
  = filter (fun l => survives cfg w l) (particles w).
Proof. intros [Hnd Hv]. rewrite step_eq. simpl. by apply Array_filter_step_kept. Qed.

Lemma step_deref w l :
  valid w -> l ∈ particles w ->
  deref l (ParticleSystem.step cfg w) =
  Particle.update cfg (innerWidth w) (innerHeight w) (deref l w).
Proof.
  intros [Hnd Hv] Hl. unfold deref. rewrite step_heap.
  apply alter_all_in; [done|done|].
  by eapply Forall_forall in Hv.
Qed.

Lemma step_valid w : valid w -> valid (ParticleSystem.step cfg w).
Proof.
  intros [Hnd Hv]. pose proof (step_particles_sublist w) as Hs. split.
  - by eapply sublist_NoDup.
  - rewrite step_heap, length_alter_all. apply Forall_forall. intros l Hl.
    eapply Forall_forall in Hv; [done|]. by eapply elem_of_sublist.
Qed.

End Step.


(** ** The physics of one particle *)

Ltac split_max_min :=
  unfold Rmax, Rmin; repeat destruct (Rle_dec _ _); try lra.

Section Update.
Variable cfg : Config.
Variables W H : R.

Lemma update_life p :
  Particle.life (Particle.update cfg W H p) = Particle.life p - Particle.decay p.
Proof. unfold Particle.update. by repeat (destruct (_ || _); simpl). Qed.

Lemma update_decay p :
  Particle.decay (Particle.update cfg W H p) = Particle.decay p.
Proof. unfold Particle.update. by repeat (destruct (_ || _); simpl). Qed.

Lemma update_alpha p :
  Particle.alpha (Particle.update cfg W H p)
  = Rmax 0 (Particle.life p - Particle.decay p).
Proof. unfold Particle.update. by repeat (destruct (_ || _); simpl). Qed.

(** A particle is dead after [update()] exactly when its remaining life has
    dropped to zero or below. *)
Lemma isDead_update p :
  Particle.isDead (Particle.update cfg W H p) = true
  <-> Particle.life (Particle.update cfg W H p) <= 0.
Proof.
  unfold Particle.isDead. rewrite update_alpha, update_life.
  rewrite bool_decide_eq_true. split_max_min.
Qed.

(** The horizontal part of [update()]: friction, integration, and on a
    crossing of the left or right edge reflection with damping and clamping. *)
Lemma update_x p :
  let v := Particle.vx p * physics_friction cfg in
  let x1 := Particle.x p + v in
  let p' := Particle.update cfg W H p in
  (x1 < 0 \/ x1 > W ->
     Particle.vx p' = v * - physics_bounce cfg
     /\ Particle.x p' = Rmax 0 (Rmin W x1))
  /\ (0 <= x1 <= W -> Particle.vx p' = v /\ Particle.x p' = x1).
Proof.
  simpl. unfold Particle.update.
  destruct (bool_decide (Particle.x p + _ < 0) || _) eqn:Ex;
    destruct (bool_decide (Particle.y p + _ < 0) || _) eqn:Ey; simpl;
    first [ apply orb_true_iff in Ex as Hx; rewrite !bool_decide_eq_true in Hx
          | apply orb_false_iff in Ex as Hx; rewrite !bool_decide_eq_false in Hx ];
    (split; [intros Hc|intros Hc]; try done; exfalso; lra).
Qed.

(** The vertical part: gravity first, then as for the horizontal part. *)
Lemma update_y p :
  let v := (Particle.vy p + physics_gravity cfg) * physics_friction cfg in
  let y1 := Particle.y p + v in
  let p' := Particle.update cfg W H p in
  (y1 < 0 \/ y1 > H ->
     Particle.vy p' = v * - physics_bounce cfg
     /\ Particle.y p' = Rmax 0 (Rmin H y1))
  /\ (0 <= y1 <= H -> Particle.vy p' = v /\ Particle.y p' = y1).
Proof.
  simpl. unfold Particle.update.
  destruct (bool_decide (Particle.x p + _ < 0) || _) eqn:Ex;
    destruct (bool_decide (Particle.y p + _ < 0) || _) eqn:Ey; simpl;
    first [ apply orb_true_iff in Ey as Hy; rewrite !bool_decide_eq_true in Hy
          | apply orb_false_iff in Ey as Hy; rewrite !bool_decide_eq_false in Hy ];
    (split; [intros Hc|intros Hc]; try done; exfalso; lra).
Qed.

(** After [update()] the particle is inside the viewport, whatever its
    position and velocity were; a viewport of width or height zero
    included. *)
Lemma update_in_viewport p :
  0 <= W -> 0 <= H ->
  (0 <= Particle.x (Particle.update cfg W H p) <= W)
  /\ (0 <= Particle.y (Particle.update cfg W H p) <= H).
Proof.
  intros HW HH.
  pose proof (update_x p) as [Hx1 Hx2]. pose proof (update_y p) as [Hy1 Hy2].
  simpl in *. split.
  - destruct (Rlt_dec (Particle.x p + Particle.vx p * physics_friction cfg) 0) as [Hlt|Hge].
    { destruct Hx1 as [_ ->]; [by left|]. split_max_min. }
    destruct (Rgt_dec (Particle.x p + Particle.vx p * physics_friction cfg) W) as [Hgt|Hle].
    { destruct Hx1 as [_ ->]; [by right|]. split_max_min. }
    destruct Hx2 as [_ ->]; lra.
  - destruct (Rlt_dec (Particle.y p + (Particle.vy p + physics_gravity cfg) * physics_friction cfg) 0) as [Hlt|Hge].
    { destruct Hy1 as [_ ->]; [by left|]. split_max_min. }
    destruct (Rgt_dec (Particle.y p + (Particle.vy p + physics_gravity cfg) * physics_friction cfg) H) as [Hgt|Hle].
    { destruct Hy1 as [_ ->]; [by right|]. split_max_min. }
    destruct Hy2 as [_ ->]; lra.
Qed.

End Update.


(** ** Computations that may throw *)

Lemma bind_Ok {A B} (m : M A) (f : A -> M B) w a w' :
  m w = Ok a w' -> (m ≫= f) w = f a w'.
Proof. unfold mbind, M_bind. by intros ->. Qed.

Lemma bind_Throw {A B} (m : M A) (f : A -> M B) w e w' :
  m w = Throw e w' -> (m ≫= f) w = Throw e w'.
Proof. unfold mbind, M_bind. by intros ->. Qed.

Lemma set_ctx_id w c : ctx w = c -> set_ctx c w = w.
Proof. intros <-. by destruct w. Qed.

Lemma ctx_call_Some op w log :
  ctx_call op (set_ctx (Some log) w) = Ok tt (set_ctx (Some (log ++ [op])) w).
Proof. by destruct w. Qed.

Lemma ctx_call_None op w : ctx w = None -> ctx_call op w = Throw TypeError w.
Proof. unfold ctx_call. by intros ->. Qed.

(** A loop whose rounds only make calls on the context makes the calls of
    all rounds, in order. *)
Lemma forEachM_calls {A} (a : list A) (cb : A -> M unit)
    (ops : A -> list CanvasOp) (w : World) log :
  (forall x log, cb x (set_ctx (Some log) w)
                 = Ok tt (set_ctx (Some (log ++ ops x)) w)) ->
  forEachM a cb (set_ctx (Some log) w)
  = Ok tt (set_ctx (Some (log ++ (x ← a; ops x))) w).
Proof.
  intros Hcb. revert log. induction a as [|x a IH]; intros log; simpl.
  - by rewrite app_nil_r.
  - erewrite bind_Ok by apply Hcb. rewrite IH. by rewrite app_assoc.
Qed.

Lemma bind_singleton {A} (l : list A) : (x ← l; [x]) = l.
Proof. induction l as [|x l IH]; [done|]. rewrite bind_cons, IH. done. Qed.

Lemma forEachM_ctx_call (ops : list CanvasOp) w log :
  forEachM ops ctx_call (set_ctx (Some log) w)
  = Ok tt (set_ctx (Some (log ++ ops)) w).
Proof.
  rewrite (forEachM_calls ops ctx_call (fun op => [op])).
  - by rewrite bind_singleton.
  - intros. apply ctx_call_Some.
Qed.

Section Drawing.
Variable cfg : Config.

Lemma drawConnections_Some w log :
  ParticleSystem.drawConnections cfg (set_ctx (Some log) w)
  = Ok tt (set_ctx (Some (log ++ connection_ops cfg w)) w).
Proof.
  unfold ParticleSystem.drawConnections.
  erewrite bind_Ok by apply ctx_call_Some.
  erewrite bind_Ok by apply ctx_call_Some.
  erewrite bind_Ok by apply ctx_call_Some.
  erewrite bind_Ok by reflexivity.
  erewrite bind_Ok.
  2:{ apply (forEachM_calls _ _
        (fun l => c ← Particle.connections (deref l w); line_ops cfg w l c)).
      intros l log'. erewrite bind_Ok by reflexivity.
      apply (forEachM_calls _ _ (line_ops cfg w l)).
      intros c log''. erewrite bind_Ok by reflexivity.
      erewrite bind_Ok by apply ctx_call_Some.
      erewrite bind_Ok by apply ctx_call_Some.
      erewrite bind_Ok by apply ctx_call_Some.
      erewrite bind_Ok by apply ctx_call_Some.
      rewrite ctx_call_Some. unfold line_ops.
      by rewrite <- !app_assoc. }
  rewrite ctx_call_Some. unfold connection_ops.
  by rewrite <- !app_assoc.
Qed.

Lemma drawParticles_Some w log :
  ParticleSystem.drawParticles (set_ctx (Some log) w)
  = Ok tt (set_ctx (Some (log ++ particle_ops w)) w).
Proof.
  unfold ParticleSystem.drawParticles.
  erewrite bind_Ok by reflexivity.
  apply (forEachM_calls _ _ (fun l => Particle.draw (deref l w))).
  intros l log'. erewrite bind_Ok by reflexivity.
  apply forEachM_ctx_call.
Qed.

End Drawing.


(** ** Pointer forces *)

Section Pointer.
Variable cfg : Config.

Lemma applyMouseForces_eq w :
  ParticleSystem.applyMouseForces cfg w =
  if isMouseOver w
  then set_heap (alter_all (pointer_force cfg (mouseX w) (mouseY w))
                   (particles w) (heap w)) w
  else w.
Proof.
  unfold ParticleSystem.applyMouseForces. destruct (isMouseOver w); simpl; [|done].
  apply (forEach_modify (fun w => pointer_force cfg (mouseX w) (mouseY w))); [|done].
  intros l w'.
  destruct (bool_decide (sqrt _ < mouse_repulsionRadius cfg)) eqn:Hrep.
  { apply modify_ext. unfold pointer_force. by rewrite Hrep. }
  destruct (bool_decide (sqrt _ < mouse_attractionRadius cfg)) eqn:Hatt.
  { apply modify_ext. unfold pointer_force. by rewrite Hrep, Hatt. }
  symmetry. apply modify_fix. unfold pointer_force. by rewrite Hrep, Hatt.
Qed.

Lemma applyMouseForces_particles w :
  particles (ParticleSystem.applyMouseForces cfg w) = particles w.
Proof. rewrite applyMouseForces_eq. by destruct (isMouseOver w). Qed.

Lemma applyMouseForces_length w :
  length (heap (ParticleSystem.applyMouseForces cfg w)) = length (heap w).
Proof.
  rewrite applyMouseForces_eq. destruct (isMouseOver w); [|done].
  simpl. apply length_alter_all.
Qed.

(** The force acts on the velocity only. *)
Lemma pointer_force_rest mx my p :
  let p' := pointer_force cfg mx my p in
  Particle.x p' = Particle.x p /\ Particle.y p' = Particle.y p
  /\ Particle.life p' = Particle.life p /\ Particle.decay p' = Particle.decay p
  /\ Particle.alpha p' = Particle.alpha p /\ Particle.size p' = Particle.size p
  /\ Particle.color p' = Particle.color p
  /\ Particle.connections p' = Particle.connections p.
Proof. simpl. unfold pointer_force. by repeat case_bool_decide. Qed.

Lemma alter_all_proj {B} (proj : Particle.t -> B) f ls h l :
  (forall p, proj (f p) = proj p) ->
  proj (alter_all f ls h !!! l) = proj (h !!! l).
Proof.
  intros Hf. revert h. induction ls as [|l' ls IH]; intros h; [done|].
  change (alter_all f (l' :: ls) h) with (alter_all f ls (alter f l' h)).
  rewrite IH, list_lookup_total_alter. case_decide as Hl; [|done].
  destruct Hl as [-> _]. apply Hf.
Qed.

Lemma applyMouseForces_proj {B} (proj : Particle.t -> B) w l :
  (forall mx my p, proj (pointer_force cfg mx my p) = proj p) ->
  proj (deref l (ParticleSystem.applyMouseForces cfg w)) = proj (deref l w).
Proof.
  intros Hf. rewrite applyMouseForces_eq. destruct (isMouseOver w); [|done].
  unfold deref. simpl. by apply alter_all_proj.
Qed.

(** With the pointer active every particle of the field gets the force
    of its branch exactly once; without it nothing changes. *)
Lemma applyMouseForces_deref w l :
  valid w -> l ∈ particles w ->
  deref l (ParticleSystem.applyMouseForces cfg w)
  = if isMouseOver w
    then pointer_force cfg (mouseX w) (mouseY w) (deref l w)
    else deref l w.
Proof.
  intros [Hnd Hv] Hl. rewrite applyMouseForces_eq.
  destruct (isMouseOver w); [|done].
  unfold deref. cbn [heap set_heap]. apply alter_all_in; [done|done|].
  by eapply Forall_forall in Hv.
Qed.

Lemma applyMouseForces_valid w :
  valid w -> valid (ParticleSystem.applyMouseForces cfg w).
Proof.
  unfold valid. by rewrite applyMouseForces_particles, applyMouseForces_length.
Qed.

End Pointer.

(** ** Connections *)

Lemma only_connections_refl p : only_connections p p.
Proof. by destruct p. Qed.

Lemma only_connections_set p p' cs :
  only_connections p p' -> only_connections p (Particle.set_connections cs p').
Proof. unfold only_connections. intros ->. by destruct p. Qed.

Lemma only_connections_xy p p' :
  only_connections p p' ->
  Particle.x p' = Particle.x p /\ Particle.y p' = Particle.y p.
Proof. unfold only_connections. intros ->. by destruct p. Qed.

Lemma heap_only_connections_refl h : heap_only_connections h h.
Proof. split; [done|]. intros l. apply only_connections_refl. Qed.

Lemma heap_only_connections_alter h h' l f :
  heap_only_connections h h' ->
  (forall p, exists cs, f p = Particle.set_connections cs p) ->
  heap_only_connections h (alter f l h').
Proof.
  intros [Hlen Hoc] Hf. split; [by rewrite length_alter|].
  intros k. rewrite list_lookup_total_alter. case_decide as Hk; [|done].
  destruct Hk as [-> _]. destruct (Hf (h' !!! k)) as [cs ->].
  by apply only_connections_set.
Qed.

Lemma heap_only_connections_alter_all h h' ls f :
  heap_only_connections h h' ->
  (forall p, exists cs, f p = Particle.set_connections cs p) ->
  heap_only_connections h (alter_all f ls h').
Proof.
  intros Hoc Hf. revert h' Hoc. induction ls as [|l ls IH]; intros h' Hoc; [done|].
  change (alter_all f (l :: ls) h') with (alter_all f ls (alter f l h')).
  apply IH. by apply heap_only_connections_alter.
Qed.

Lemma dist_only_connections h h' a b :
  heap_only_connections h h' -> dist h' a b = dist h a b.
Proof.
  intros [_ Hoc]. unfold dist.
  destruct (only_connections_xy _ _ (Hoc a)) as [-> ->].
  by destruct (only_connections_xy _ _ (Hoc b)) as [-> ->].
Qed.

(** The distance does not depend on the order of the two particles. *)
Lemma dist_sym h a b : dist h a b = dist h b a.
Proof. unfold dist. simpl. f_equal. lra. Qed.

Lemma push_nil p : push [] p = p.
Proof. unfold push. rewrite app_nil_r. by destruct p. Qed.

Lemma push_is_set cs p : exists cs', push cs p = Particle.set_connections cs' p.
Proof. by eexists. Qed.

Section Connections.
Variable cfg : Config.

Lemma near_only_connections h h' a bs :
  heap_only_connections h h' -> near cfg h' a bs = near cfg h a bs.
Proof.
  intros H. unfold near.
  rewrite (list_filter_iff _ (fun b => dist h a b < connectionDistance cfg)).
  2:{ intros b. by rewrite (dist_only_connections h h'). }
  apply list_fmap_ext. intros _ b _. by rewrite (dist_only_connections h h').
Qed.

(** The inner loop pushes, onto the particle at index [i], its connections
    against the particles at the indices [js]. *)
Lemma inner_loop i js w :
  foldl (fun w j => ParticleSystem.connect cfg i j w) w js =
  modify (particles w !!! i)
    (push (near cfg (heap w) (particles w !!! i) ((particles w !!!.) <$> js))) w.
Proof.
  revert w. induction js as [|j js IH]; intros w.
  - simpl. symmetry. apply modify_fix. unfold near. simpl. apply push_nil.
  - simpl. rewrite IH. clear IH. unfold ParticleSystem.connect.
    set (a := particles w !!! i). set (b := particles w !!! j).
    change (sqrt _) with (dist (heap w) a b).
    unfold near at 2. rewrite filter_cons.
    case_bool_decide as Hd.
    + rewrite decide_True by done.
      change (particles (modify _ _ w)) with (particles w). fold a.
      rewrite (near_only_connections (heap w)).
      2:{ apply heap_only_connections_alter; [apply heap_only_connections_refl|].
          intros p. by eexists. }
      rewrite modify_modify. apply modify_ext. simpl.
      unfold push. simpl. rewrite <- app_assoc. done.
    + by rewrite decide_False by done.
Qed.

Lemma connect_from_eq i w :
  connect_from cfg i w =
  modify (particles w !!! i)
    (push (near cfg (heap w) (particles w !!! i) (drop (S i) (particles w)))) w.
Proof.
  unfold connect_from, for_range. rewrite inner_loop.
  by rewrite lookup_total_seq_drop, Nat.add_1_r.
Qed.

Lemma connect_upto_S k w :
  connect_upto cfg (S k) w = connect_from cfg k (connect_upto cfg k w).
Proof. unfold connect_upto. by rewrite seq_S, foldl_snoc. Qed.

Lemma connect_upto_frame k w :
  connect_upto cfg k w = set_heap (heap (connect_upto cfg k w)) w
  /\ heap_only_connections (heap w) (heap (connect_upto cfg k w)).
Proof.
  induction k as [|k [IH1 IH2]].
  - split; [by rewrite set_heap_id|apply heap_only_connections_refl].
  - rewrite connect_upto_S, connect_from_eq. split.
    + unfold modify. simpl.
      generalize (near cfg (heap (connect_upto cfg k w))) as nr. intros nr.
      generalize (particles (connect_upto cfg k w)) as ps. intros ps.
      generalize (alter (push (nr (ps !!! k) (drop (S k) ps))) (ps !!! k)
                    (heap (connect_upto cfg k w))) as h'. intros h'.
      rewrite IH1. by destruct w.
    + simpl. apply heap_only_connections_alter; [done|]. intros p. apply push_is_set.
Qed.

Lemma connect_upto_particles k w : particles (connect_upto cfg k w) = particles w.
Proof. destruct (connect_upto_frame k w) as [-> _]. done. Qed.

Lemma connect_upto_connections k w i :
  NoDup (particles w) ->
  (i < length (particles w))%nat ->
  (particles w !!! i < length (heap w))%nat ->
  (k <= length (particles w))%nat ->
  Particle.connections (deref (particles w !!! i) (connect_upto cfg k w)) =
  Particle.connections (deref (particles w !!! i) w)
  ++ (if decide (i < k)%nat
      then near cfg (heap w) (particles w !!! i) (drop (S i) (particles w))
      else []).
Proof.
  intros Hnd Hi Hv. induction k as [|k IH]; intros Hk.
  - rewrite decide_False by lia. by rewrite app_nil_r.
  - specialize (IH ltac:(lia)).
    rewrite connect_upto_S, connect_from_eq, connect_upto_particles.
    destruct (connect_upto_frame k w) as [_ Hoc].
    rewrite (near_only_connections (heap w)) by done.
    unfold deref in *. simpl. rewrite list_lookup_total_alter.
    destruct (decide (i = k)) as [->|Hne].
    + rewrite decide_True.
      2:{ split; [done|]. destruct Hoc as [-> _]. done. }
      rewrite (decide_True (P := (k < S k)%nat)) by lia.
      unfold push. simpl. rewrite IH. rewrite decide_False by lia.
      by rewrite app_nil_r.
    + rewrite decide_False.
      2:{ intros [Heq _]. apply Hne.
          destruct (lookup_lt_is_Some_2 (particles w) i Hi) as [a Ha].
          destruct (lookup_lt_is_Some_2 (particles w) k ltac:(lia)) as [b Hb].
          rewrite (list_lookup_total_correct _ _ _ Ha) in Heq.
          rewrite (list_lookup_total_correct _ _ _ Hb) in Heq. subst b.
          by eapply NoDup_lookup. }
      rewrite IH. repeat case_decide; try lia; done.
Qed.

(** [updateConnections()] clears the connections of the particles of the
    field and then runs all the rounds of the outer loop. *)
Lemma updateConnections_eq w :
  ParticleSystem.updateConnections cfg w =
  connect_upto cfg (length (particles w))
    (set_heap (alter_all (Particle.set_connections []) (particles w) (heap w)) w).
Proof.
  unfold ParticleSystem.updateConnections.
  rewrite (forEach_modify (fun _ => Particle.set_connections [])) by done.
  unfold for_range, connect_upto, connect_from, for_range. simpl.
  by rewrite Nat.sub_0_r.
Qed.

Lemma updateConnections_frame w :
  let w' := ParticleSystem.updateConnections cfg w in
  w' = set_heap (heap w') w /\ heap_only_connections (heap w) (heap w').
Proof.
  simpl. rewrite updateConnections_eq.
  set (w1 := set_heap _ w).
  destruct (connect_upto_frame (length (particles w)) w1) as [H1 [Hlen Hoc]].
  split.
  - rewrite H1 at 1. unfold w1. by destruct w.
  - assert (Hclear : heap_only_connections (heap w) (heap w1)).
    { unfold w1. simpl.
      apply heap_only_connections_alter_all; [apply heap_only_connections_refl|].
      intros p. by eexists. }
    destruct Hclear as [Hlen1 Hoc1]. split; [congruence|].
    intros l. specialize (Hoc l). specialize (Hoc1 l).
    unfold only_connections in *. rewrite Hoc, Hoc1.
    by destruct (heap w !!! l).
Qed.

Lemma updateConnections_particles w :
  particles (ParticleSystem.updateConnections cfg w) = particles w.
Proof. destruct (updateConnections_frame w) as [-> _]. done. Qed.

Lemma updateConnections_valid w :
  valid w -> valid (ParticleSystem.updateConnections cfg w).
Proof.
  unfold valid. rewrite updateConnections_particles.
  destruct (updateConnections_frame w) as [_ [-> _]]. done.
Qed.

(** The connections of the particle at index [i] after [updateConnections()]:
    one for each later particle of the array that is nearer than the
    connection distance, in the order of the array. *)
Lemma updateConnections_connections w i :
  valid w -> (i < length (particles w))%nat ->
  Particle.connections
    (deref (particles w !!! i) (ParticleSystem.updateConnections cfg w))
  = near cfg (heap w) (particles w !!! i) (drop (S i) (particles w)).
Proof.
  intros [Hnd Hv] Hi. rewrite updateConnections_eq.
  set (h1 := alter_all _ _ _).
  assert (Hin : particles w !!! i ∈ particles w)
    by (by apply list_elem_of_lookup_total_2).
  assert (Hlt : (particles w !!! i < length (heap w))%nat)
    by (by eapply Forall_forall in Hv).
  pose proof (connect_upto_connections (length (particles w)) (set_heap h1 w) i)
    as Hc. simpl in Hc.
  rewrite Hc; [|done|done|by unfold h1; rewrite length_alter_all|done].
  rewrite decide_True by done.
  unfold deref, h1. simpl. rewrite alter_all_in by done. simpl.
  apply near_only_connections.
  apply heap_only_connections_alter_all; [apply heap_only_connections_refl|].
  intros p. by eexists.
Qed.

End Connections.


(** ** Explosions and the initial field *)

Lemma slice_neg {A} (c : nat) (a : list A) :
  (0 < c)%nat -> slice (- Z.of_nat c) a = drop (length a - c) a.
Proof.
  intros Hc. unfold slice.
  destruct (Z.ltb_spec (- Z.of_nat c) 0) as [_|Hge]; [|lia].
  f_equal. lia.
Qed.

Lemma slice_zero {A} (a : list A) : slice 0 a = a.
Proof. unfold slice. simpl. by rewrite Z.min_l by lia. Qed.

Section Explosion.
Variable cfg : Config.

Lemma createExplosion_rounds x y w n :
  foldl (ParticleSystem.createExplosion_round cfg x y) ([], w) (seq 0 n) =
  (seq (length (heap w)) n,
   set_random_idx (random_idx w + 6 * n)
     (set_heap (heap w ++ burst cfg x y w n) w)).
Proof.
  unfold burst. induction n as [|n IH].
  - cbn [seq foldl fmap list_fmap]. rewrite Nat.mul_0_r, Nat.add_0_r, app_nil_r.
    by destruct w.
  - rewrite seq_S, foldl_snoc, IH. clear IH.
    unfold ParticleSystem.createExplosion_round, ParticleSystem.new_Particle.
    destruct w as [h ps mx my over lx ly c cw ch iw ih src idx pend].
    simpl_world.
    rewrite !alter_snoc.
    rewrite !length_app, length_fmap, length_seq.
    rewrite seq_S, fmap_app, Nat.add_0_l.
    rewrite <- app_assoc.
    f_equal. f_equal; [|lia].
    f_equal. cbn [fmap list_fmap]. f_equal.
    unfold explosion_particle.
    repeat (f_equal; try lia).
Qed.

(** [createExplosion(x, y)] in closed form: the store grows by the burst,
    the array by the new addresses, and the array is then cut from the front
    when it is longer than twice [particleCount]. *)
Lemma createExplosion_eq x y w :
  let n := explosion_particleCount cfg in
  let all := particles w ++ seq (length (heap w)) n in
  ParticleSystem.createExplosion cfg x y w =
  set_particles
    (if bool_decide (particleCount cfg * 2 < length all)%nat
     then slice (- Z.of_nat (particleCount cfg) * 2) all else all)
    (set_random_idx (random_idx w + 6 * n)
       (set_heap (heap w ++ burst cfg x y w n) w)).
Proof.
  cbv zeta. unfold ParticleSystem.createExplosion.
  rewrite createExplosion_rounds.
  destruct w as [h ps mx my over lx ly c cw ch iw ih src idx pend].
  simpl_world. by case_bool_decide.
Qed.

Lemma particles_set_particles a (w : World) : particles (set_particles a w) = a.
Proof. done. Qed.

Lemma createExplosion_heap x y w :
  heap (ParticleSystem.createExplosion cfg x y w)
  = heap w ++ burst cfg x y w (explosion_particleCount cfg).
Proof. rewrite createExplosion_eq. by destruct w. Qed.

Lemma createExplosion_particles x y w :
  let n := explosion_particleCount cfg in
  let cap := (particleCount cfg * 2)%nat in
  let all := particles w ++ seq (length (heap w)) n in
  particles (ParticleSystem.createExplosion cfg x y w) =
  if decide (0 < cap < length all)%nat then drop (length all - cap) all else all.
Proof.
  cbv zeta. rewrite createExplosion_eq.
  set (all := particles w ++ _).
  rewrite particles_set_particles.
  case_bool_decide as Hlt.
  - destruct (decide (particleCount cfg = 0)%nat) as [Hz|Hnz].
    + rewrite Hz. change (- Z.of_nat 0 * 2)%Z with 0%Z. rewrite slice_zero.
      by rewrite decide_False by lia.
    + rewrite decide_True by lia.
      replace (- Z.of_nat (particleCount cfg) * 2)%Z
        with (- Z.of_nat (particleCount cfg * 2))%Z by lia.
      apply slice_neg. lia.
  - by rewrite decide_False by lia.
Qed.

Lemma initParticles_rounds w n :
  for_range 0 n (fun _ w => ParticleSystem.initParticles_round cfg w) w =
  set_particles (particles w ++ seq (length (heap w)) n)
    (set_random_idx (random_idx w + 7 * n)
       (set_heap
          (heap w ++ (initial_particle cfg (innerWidth w) (innerHeight w)
                        (random_src w) (random_idx w) <$> seq 0 n)) w)).
Proof.
  unfold for_range. rewrite Nat.sub_0_r. induction n as [|n IH].
  - cbn [seq foldl fmap list_fmap]. rewrite Nat.mul_0_r, Nat.add_0_r, !app_nil_r.
    by destruct w.
  - rewrite seq_S, foldl_snoc, IH. clear IH.
    unfold ParticleSystem.initParticles_round, ParticleSystem.new_Particle.
    destruct w as [h ps mx my over lx ly c cw ch iw ih src idx pend].
    simpl_world.
    rewrite !length_app, length_fmap, length_seq.
    rewrite !seq_S, fmap_app, Nat.add_0_l.
    rewrite <- !app_assoc. f_equal; [|lia].
    f_equal. cbn [fmap list_fmap]. f_equal. unfold initial_particle.
    repeat (f_equal; try lia).
Qed.

Lemma constructor_eq getContext cw ch iw ih src idx :
  let n := particleCount cfg in
  ParticleSystem.constructor cfg getContext cw ch iw ih src idx =
  mkWorld (initial_particle cfg iw ih src idx <$> seq 0 n) (seq 0 n)
    0 0 false 0 0 getContext cw ch iw ih src (idx + 7 * n) 0.
Proof.
  cbv zeta. unfold ParticleSystem.constructor, ParticleSystem.initParticles.
  rewrite initParticles_rounds. by simpl_world.
Qed.

End Explosion.


(** ** The tick *)

Section Tick.
Variable cfg : Config.

(** The three state-only sub-steps neither read nor write the context. *)
Lemma applyMouseForces_set_ctx c w :
  ParticleSystem.applyMouseForces cfg (set_ctx c w)
  = set_ctx c (ParticleSystem.applyMouseForces cfg w).
Proof. rewrite !applyMouseForces_eq. simpl. by destruct (isMouseOver w). Qed.

Lemma Array_filter_step_set_ctx c ls w :
  Array_filter ls (ParticleSystem.step_callback cfg) (set_ctx c w) =
  ((Array_filter ls (ParticleSystem.step_callback cfg) w).1,
   set_ctx c (Array_filter ls (ParticleSystem.step_callback cfg) w).2).
Proof.
  revert w. induction ls as [|l ls IH]; intros w; [done|].
  simpl.
  change (modify l _ (set_ctx c w))
    with (set_ctx c (modify l (Particle.update cfg (innerWidth w) (innerHeight w)) w)).
  rewrite IH.
  change (deref l (set_ctx c ?w')) with (deref l w').
  by destruct (Array_filter ls _ _).
Qed.

Lemma step_set_ctx c w :
  ParticleSystem.step cfg (set_ctx c w) = set_ctx c (ParticleSystem.step cfg w).
Proof.
  unfold ParticleSystem.step. simpl. rewrite Array_filter_step_set_ctx.
  by destruct (Array_filter _ _ w).
Qed.

Lemma connect_upto_set_ctx c k w :
  connect_upto cfg k (set_ctx c w) = set_ctx c (connect_upto cfg k w).
Proof.
  induction k as [|k IH]; [done|].
  rewrite !connect_upto_S, IH, !connect_from_eq. done.
Qed.

Lemma updateConnections_set_ctx c w :
  ParticleSystem.updateConnections cfg (set_ctx c w)
  = set_ctx c (ParticleSystem.updateConnections cfg w).
Proof. rewrite !updateConnections_eq. simpl. by rewrite <- connect_upto_set_ctx. Qed.

(** They write the store and the array only. *)
Lemma field_only_trans w1 w2 w3 :
  w2 = set_particles (particles w2) (set_heap (heap w2) w1) ->
  w3 = set_particles (particles w3) (set_heap (heap w3) w2) ->
  w3 = set_particles (particles w3) (set_heap (heap w3) w1).
Proof. intros H1 H2. rewrite H2 at 1. rewrite H1 at 1. done. Qed.

Lemma applyMouseForces_frame w :
  let w' := ParticleSystem.applyMouseForces cfg w in
  w' = set_particles (particles w') (set_heap (heap w') w).
Proof.
  cbv zeta. rewrite applyMouseForces_eq.
  destruct (isMouseOver w); by destruct w.
Qed.

Lemma step_frame w :
  let w' := ParticleSystem.step cfg w in
  w' = set_particles (particles w') (set_heap (heap w') w).
Proof. cbv zeta. rewrite step_eq. by destruct w. Qed.

Lemma updateConnections_frame' w :
  let w' := ParticleSystem.updateConnections cfg w in
  w' = set_particles (particles w') (set_heap (heap w') w).
Proof.
  cbv zeta. destruct (updateConnections_frame cfg w) as [H _]. cbv zeta in H.
  rewrite H at 1. rewrite updateConnections_particles. by destruct w.
Qed.

Lemma tick_state_frame w :
  let w' := tick_state cfg w in
  w' = set_particles (particles w') (set_heap (heap w') w).
Proof.
  cbv zeta. unfold tick_state.
  eapply field_only_trans; [|apply updateConnections_frame'].
  eapply field_only_trans; [|apply step_frame].
  apply applyMouseForces_frame.
Qed.

Lemma tick_state_valid w : valid w -> valid (tick_state cfg w).
Proof.
  intros Hw. unfold tick_state.
  by apply updateConnections_valid, step_valid, applyMouseForces_valid.
Qed.

(** [animate()] with a context: the surface is cleared first; the lines and
    then the particles of the field are drawn as they are after the pointer
    forces, the step and the recomputation of the connections; a frame is
    requested last. *)
Lemma animate_Some w log :
  let w' := tick_state cfg w in
  ParticleSystem.animate cfg (set_ctx (Some log) w) =
  Ok tt (set_pending (S (pending w))
           (set_ctx (Some (log
                           ++ [ClearRect 0 0 (canvas_width w) (canvas_height w)]
                           ++ connection_ops cfg w' ++ particle_ops w')) w')).
Proof.
  cbv zeta. unfold ParticleSystem.animate.
  erewrite bind_Ok by reflexivity.
  erewrite bind_Ok by apply ctx_call_Some.
  erewrite bind_Ok by reflexivity.
  erewrite bind_Ok by reflexivity.
  erewrite bind_Ok by reflexivity.
  rewrite applyMouseForces_set_ctx, step_set_ctx, updateConnections_set_ctx.
  fold (tick_state cfg w).
  erewrite bind_Ok by apply drawConnections_Some.
  erewrite bind_Ok by apply drawParticles_Some.
  unfold requestAnimationFrame, lift.
  pose proof (tick_state_frame w) as Hws. cbv zeta in Hws.
  set (ws := tick_state cfg w) in *.
  assert (Hp : pending ws = pending w) by (rewrite Hws; by destruct w).
  change (pending (set_ctx ?c ws)) with (pending ws). rewrite Hp.
  unfold connection_ops. by rewrite <- !app_assoc.
Qed.

(** [animate()] without a context: the first statement throws, and nothing
    else happens. *)
Lemma animate_None w :
  ctx w = None -> ParticleSystem.animate cfg w = Throw TypeError w.
Proof.
  intros Hc. unfold ParticleSystem.animate.
  erewrite bind_Ok by reflexivity.
  by erewrite bind_Throw by by apply ctx_call_None.
Qed.

End Tick.


(** ** The order of the array *)

Lemma StronglySorted_lt_NoDup (l : list nat) : StronglySorted lt l -> NoDup l.
Proof.
  induction 1 as [|a l Hs IH Ha]; constructor; [|done].
  intros Hin. eapply Forall_forall in Ha; [|done]. lia.
Qed.

Lemma StronglySorted_sublist (l k : list nat) :
  l `sublist_of` k -> StronglySorted lt k -> StronglySorted lt l.
Proof.
  induction 1 as [|a l k Hsub IH|a l k Hsub IH]; intros Hk; [done|..].
  - apply StronglySorted_inv in Hk as [Hk Ha]. constructor; [by apply IH|].
    apply Forall_forall. intros b Hb. eapply Forall_forall in Ha; [done|].
    by eapply elem_of_sublist.
  - apply StronglySorted_inv in Hk as [Hk _]. by apply IH.
Qed.

Lemma StronglySorted_seq a n : StronglySorted lt (seq a n).
Proof.
  revert a. induction n as [|n IH]; intros a; simpl; constructor; [done|].
  apply Forall_forall. intros b Hb. apply elem_of_seq in Hb. lia.
Qed.

Lemma sublist_Forall_lt (l k : list nat) (n : nat) :
  l `sublist_of` k -> Forall (fun a => (a < n)%nat) k -> Forall (fun a => (a < n)%nat) l.
Proof.
  intros Hsub Hk. apply Forall_forall. intros a Ha.
  eapply Forall_forall in Hk; [done|]. by eapply elem_of_sublist.
Qed.

Lemma oldest_first_valid w : oldest_first w -> valid w.
Proof. intros [Hs Hv]. split; [by apply StronglySorted_lt_NoDup|done]. Qed.

Section Order.
Variable cfg : Config.

Lemma createExplosion_drop x y w :
  exists k,
    particles (ParticleSystem.createExplosion cfg x y w)
    = drop k (particles w ++ seq (length (heap w)) (explosion_particleCount cfg)).
Proof.
  rewrite createExplosion_particles. cbv zeta.
  case_decide; [by eexists|]. by exists 0%nat.
Qed.

Lemma step_oldest_first w :
  oldest_first w -> oldest_first (ParticleSystem.step cfg w).
Proof.
  intros [Hs Hv]. pose proof (step_particles_sublist cfg w) as Hsub. split.
  - by eapply StronglySorted_sublist.
  - rewrite step_heap, length_alter_all. by eapply sublist_Forall_lt.
Qed.

Lemma createExplosion_oldest_first x y w :
  oldest_first w -> oldest_first (ParticleSystem.createExplosion cfg x y w).
Proof.
  intros [Hs Hv]. destruct (createExplosion_drop x y w) as [k Hk].
  set (n := explosion_particleCount cfg) in *.
  assert (Hall : StronglySorted lt (particles w ++ seq (length (heap w)) n)).
  { apply StronglySorted_app_2; [|done|apply StronglySorted_seq].
    intros a b Ha Hb. eapply Forall_forall in Hv; [|done].
    apply elem_of_seq in Hb. lia. }
  assert (Hlt : Forall (fun l => (l < length (heap w) + n)%nat)
                  (particles w ++ seq (length (heap w)) n)).
  { apply Forall_app. split.
    - eapply Forall_impl; [done|]. simpl. lia.
    - apply Forall_forall. intros b Hb. apply elem_of_seq in Hb. lia. }
  split.
  - rewrite Hk. eapply StronglySorted_sublist; [apply sublist_drop|done].
  - rewrite Hk, createExplosion_heap, length_app.
    unfold burst. rewrite length_fmap, length_seq.
    eapply sublist_Forall_lt; [apply sublist_drop|done].
Qed.

Lemma applyMouseForces_oldest_first w :
  oldest_first w -> oldest_first (ParticleSystem.applyMouseForces cfg w).
Proof.
  unfold oldest_first. by rewrite applyMouseForces_particles, applyMouseForces_length.
Qed.

Lemma updateConnections_oldest_first w :
  oldest_first w -> oldest_first (ParticleSystem.updateConnections cfg w).
Proof.
  unfold oldest_first. rewrite updateConnections_particles.
  destruct (updateConnections_frame cfg w) as [_ [-> _]]. done.
Qed.

Lemma constructor_oldest_first getContext cw ch iw ih src idx :
  oldest_first (ParticleSystem.constructor cfg getContext cw ch iw ih src idx).
Proof.
  rewrite constructor_eq. split; simpl.
  - apply StronglySorted_seq.
  - rewrite length_fmap, length_seq. apply Forall_forall.
    intros b Hb. apply elem_of_seq in Hb. lia.
Qed.

(** C10.  Every operation keeps the surviving particles in their order of
    insertion: the step keeps a subsequence of the array; an explosion
    appends the new particles at the back and removes particles from the
    front only; pointer forces, the recomputation of the connections and the
    resize handler leave the array as it is.  Hence an array that is ordered
    by age, the oldest particle first, stays so. *)
Theorem operations_preserve_insertion_order (x y : R) (w : World) :
  oldest_first w ->
  let n := explosion_particleCount cfg in
  (particles (ParticleSystem.step cfg w) `sublist_of` particles w
   /\ oldest_first (ParticleSystem.step cfg w))
  /\ ((exists k, particles (ParticleSystem.createExplosion cfg x y w)
                 = drop k (particles w ++ seq (length (heap w)) n))
      /\ oldest_first (ParticleSystem.createExplosion cfg x y w))
  /\ (particles (ParticleSystem.applyMouseForces cfg w) = particles w
      /\ oldest_first (ParticleSystem.applyMouseForces cfg w))
  /\ (particles (ParticleSystem.updateConnections cfg w) = particles w
      /\ oldest_first (ParticleSystem.updateConnections cfg w))
  /\ (particles (ParticleSystem.handleResize w) = particles w
      /\ oldest_first (ParticleSystem.handleResize w)).
Proof.
  intros Hw. cbv zeta. repeat split.
  - apply step_particles_sublist.
  - by apply step_oldest_first.
  - by apply step_oldest_first.
  - apply createExplosion_drop.
  - by apply createExplosion_oldest_first.
  - by apply createExplosion_oldest_first.
  - apply applyMouseForces_particles.
  - by apply applyMouseForces_oldest_first.
  - by apply applyMouseForces_oldest_first.
  - apply updateConnections_particles.
  - by apply updateConnections_oldest_first.
  - by apply updateConnections_oldest_first.
  - apply Hw.
  - apply Hw.
Qed.

End Order.


Lemma w_pair_oldest_first : oldest_first w_pair.
Proof.
  split; simpl.
  - repeat constructor.
  - repeat constructor.
Qed.

Lemma w_dying_valid : valid w_dying.
Proof.
  split; simpl.
  - apply NoDup_cons. split; [|apply NoDup_singleton].
    intros Hin. apply list_elem_of_singleton in Hin. lia.
  - repeat constructor.
Qed.

Lemma operations_preserve_insertion_order_witness :
  oldest_first w_pair
  /\ particles (ParticleSystem.step PARTICLE_CONFIG w_pair)
     `sublist_of` particles w_pair.
Proof.
  split; [exact w_pair_oldest_first|].
  apply (operations_preserve_insertion_order PARTICLE_CONFIG 0 0 w_pair
           w_pair_oldest_first).
Defined.

(** ** The population cap *)

Section Cap.
Variable cfg : Config.

(** C3.  An explosion of [n] particles in a field of [current] particles,
    with the cap at twice [particleCount]: when [current + n] is at most the
    cap the field grows by exactly the [n] new particles; otherwise it ends
    with [min (current + n) cap] particles, and what is removed is exactly
    the first [current + n - cap] entries of the array with the new
    particles appended.  The baseline count is taken to be positive, as it
    is in [PARTICLE_CONFIG]. *)
Theorem createExplosion_count (x y : R) (w : World) :
  (0 < particleCount cfg)%nat ->
  let current := length (particles w) in
  let n := explosion_particleCount cfg in
  let cap := (particleCount cfg * 2)%nat in
  let all := particles w ++ seq (length (heap w)) n in
  let w' := ParticleSystem.createExplosion cfg x y w in
  ((current + n <= cap)%nat ->
     particles w' = all /\ length (particles w') = (current + n)%nat)
  /\ ((cap < current + n)%nat ->
        length (particles w') = Nat.min (current + n) cap
        /\ particles w' = drop (current + n - cap) all
        /\ all = take (current + n - cap) all ++ particles w').
Proof.
  intros Hpos. cbv zeta.
  rewrite createExplosion_particles. cbv zeta.
  set (all := particles w ++ _).
  assert (Hlen : length all = (length (particles w) + explosion_particleCount cfg)%nat).
  { unfold all. by rewrite length_app, length_seq. }
  split; intros Hcmp.
  - rewrite decide_False by lia. done.
  - rewrite decide_True by lia. rewrite Hlen.
    split; [rewrite length_drop; lia|]. split; [done|].
    by rewrite take_drop.
Qed.

End Cap.

Lemma createExplosion_count_witness :
  (0 < particleCount PARTICLE_CONFIG)%nat
  /\ length (particles (ParticleSystem.createExplosion PARTICLE_CONFIG 400 300 w_pair))
     = 22%nat.
Proof.
  assert (Hpos : (0 < particleCount PARTICLE_CONFIG)%nat) by (simpl; lia).
  split; [exact Hpos|].
  destruct (createExplosion_count PARTICLE_CONFIG 400 300 w_pair Hpos)
    as [Hle _].
  apply Hle. simpl. lia.
Defined.

(** ** Dead particles *)

Lemma filter_all_in {A} (P : A -> Prop) `{!∀ x, Decision (P x)} (l : list A) :
  (∀ x, x ∈ l -> P x) -> filter P l = l.
Proof.
  induction l as [|a l IH]; intros Hall; [done|].
  rewrite filter_cons_True by (apply Hall; by left).
  f_equal. apply IH. intros x Hx. apply Hall. by right.
Qed.

Section Dead.
Variable cfg : Config.

Lemma survives_iff w l :
  survives cfg w l
  <-> 0 < Particle.life
            (Particle.update cfg (innerWidth w) (innerHeight w) (deref l w)).
Proof.
  unfold survives. rewrite negb_True.
  rewrite Is_true_true, isDead_update. lra.
Qed.

(** C4.  After a step no particle of the field has a remaining life of zero
    or less.  The step is one pass over the array: every particle of the
    array is updated exactly once, and the array that results holds, in
    their old order, exactly those whose life is still positive.  A step in
    which no life drops to zero or below removes nothing. *)
Theorem step_removes_dead (w : World) :
  valid w ->
  let w' := ParticleSystem.step cfg w in
  (forall l, l ∈ particles w ->
     deref l w' = Particle.update cfg (innerWidth w) (innerHeight w) (deref l w))
  /\ particles w'
     = filter (fun l => 0 < Particle.life (deref l w')) (particles w)
  /\ (forall l, l ∈ particles w' -> ~ Particle.life (deref l w') <= 0)
  /\ ((forall l, l ∈ particles w -> ~ Particle.life (deref l w') <= 0) ->
        particles w' = particles w).
Proof.
  intros Hw. cbv zeta.
  assert (Hfilter : particles (ParticleSystem.step cfg w)
            = filter (fun l => 0 < Particle.life (deref l (ParticleSystem.step cfg w)))
                (particles w)).
  { rewrite step_particles at 1 by done. apply filter_ext_in.
    intros l Hl. rewrite survives_iff. by rewrite step_deref. }
  split; [intros l Hl; by apply step_deref|].
  split; [done|]. split.
  - intros l Hl. rewrite Hfilter in Hl.
    apply list_elem_of_filter in Hl as [Hpos _]. lra.
  - intros Hall. rewrite Hfilter at 1. apply filter_all_in.
    intros l Hl. specialize (Hall l Hl). lra.
Qed.

End Dead.

Lemma step_removes_dead_witness :
  valid w_dying
  /\ forall l, l ∈ particles (ParticleSystem.step PARTICLE_CONFIG w_dying) ->
       ~ Particle.life (deref l (ParticleSystem.step PARTICLE_CONFIG w_dying)) <= 0.
Proof.
  split; [exact w_dying_valid|].
  apply (step_removes_dead PARTICLE_CONFIG w_dying w_dying_valid).
Defined.


(** ** Runs of the system *)

(** A property of the field that does not depend on the pointer, the
    context or the pending callbacks, and that a tick preserves, holds
    after every frame and every pointer event. *)
Section Runs.
Variable cfg : Config.
Variable I : World -> Prop.
Hypothesis I_field : forall w w',
  heap w' = heap w -> particles w' = particles w ->
  innerWidth w' = innerWidth w -> innerHeight w' = innerHeight w ->
  I w -> I w'.
Hypothesis I_tick : forall w, I w -> I (tick_state cfg w).

Lemma run_callback_preserves w : I w -> I (ParticleSystem.run_callback cfg w).
Proof.
  intros Hw. unfold ParticleSystem.run_callback.
  destruct (ctx w) as [log|] eqn:Hc.
  - rewrite <- (set_ctx_id w (Some log)) by done.
    rewrite animate_Some. cbv zeta.
    by apply (I_field (tick_state cfg w)); [..|apply I_tick].
  - by rewrite animate_None.
Qed.

Lemma frame_preserves w : I w -> I (ParticleSystem.frame cfg w).
Proof.
  intros Hw. unfold ParticleSystem.frame.
  induction (pending w) as [|n IH]; simpl.
  - by apply (I_field w).
  - by apply run_callback_preserves.
Qed.

Lemma react_preserves w i : I w -> I (react cfg w i).
Proof.
  intros Hw. destruct i; simpl.
  - by apply frame_preserves.
  - by apply (I_field w).
  - by apply (I_field w).
  - by apply (I_field w).
Qed.

Lemma run_preserves w inputs : I w -> I (foldl (react cfg) w inputs).
Proof.
  intros Hw. induction inputs as [|i inputs IH] using rev_ind; [done|].
  rewrite foldl_snoc. by apply react_preserves.
Qed.

Lemma initParticleSystem_establishes getContext iw ih src idx :
  I (ParticleSystem.constructor cfg getContext 300 150 iw ih src idx) ->
  I (state_of (ParticleSystem.initParticleSystem cfg getContext iw ih src idx)).
Proof.
  intros Hc.
  unfold ParticleSystem.initParticleSystem, ParticleSystem.start.
  erewrite bind_Ok by reflexivity.
  apply (run_callback_preserves (ParticleSystem.handleResize _)).
  by eapply I_field; [..|apply Hc].
Qed.

End Runs.

(** ** The viewport *)

Section Viewport.
Variable cfg : Config.
Variables iw ih : R.

Lemma in_viewport_same_field w w' :
  heap w' = heap w -> particles w' = particles w ->
  innerWidth w' = innerWidth w -> innerHeight w' = innerHeight w ->
  in_viewport iw ih w -> in_viewport iw ih w'.
Proof.
  unfold in_viewport, valid, in_bounds, deref.
  by intros -> -> -> ->.
Qed.

Lemma tick_state_in_viewport w :
  in_viewport iw ih w -> in_viewport iw ih (tick_state cfg w).
Proof.
  intros (Hv & [HW HH] & [Hiw Hih] & _).
  pose proof (tick_state_frame cfg w) as Hfr. cbv zeta in Hfr.
  split; [by apply tick_state_valid|].
  split; [rewrite Hfr; by destruct w|].
  split; [done|].
  intros l Hl. unfold in_bounds.
  replace (innerWidth (tick_state cfg w)) with (innerWidth w)
    by (rewrite Hfr; by destruct w).
  replace (innerHeight (tick_state cfg w)) with (innerHeight w)
    by (rewrite Hfr; by destruct w).
  unfold tick_state in *.
  set (w1 := ParticleSystem.applyMouseForces cfg w) in *.
  assert (Hv1 : valid w1) by by apply applyMouseForces_valid.
  rewrite updateConnections_particles in Hl.
  destruct (updateConnections_frame cfg (ParticleSystem.step cfg w1)) as [_ [_ Hoc]].
  destruct (only_connections_xy _ _ (Hoc l)) as [Hx Hy].
  unfold deref. rewrite Hx, Hy.
  fold (deref l (ParticleSystem.step cfg w1)).
  rewrite step_deref; [|done|by eapply elem_of_sublist, step_particles_sublist].
  replace (innerWidth w1) with (innerWidth w)
    by (unfold w1; rewrite applyMouseForces_frame; by destruct w).
  replace (innerHeight w1) with (innerHeight w)
    by (unfold w1; rewrite applyMouseForces_frame; by destruct w).
  rewrite HW, HH. by apply update_in_viewport.
Qed.

Lemma constructor_in_viewport getContext cw ch src idx :
  0 <= iw -> 0 <= ih -> (forall i, 0 <= src i < 1) ->
  in_viewport iw ih (ParticleSystem.constructor cfg getContext cw ch iw ih src idx).
Proof.
  intros Hiw Hih Hsrc. rewrite constructor_eq. cbv zeta.
  split; [|split; [done|split; [done|]]].
  - split; simpl.
    + apply NoDup_seq.
    + rewrite length_fmap, length_seq. apply Forall_forall.
      intros b Hb. apply elem_of_seq in Hb. lia.
  - intros l Hl. simpl in Hl. apply elem_of_seq in Hl.
    unfold in_bounds, deref. simpl.
    rewrite (list_lookup_total_fmap _ (Inhabited0 := Nat.inhabited))
      by (rewrite length_seq; lia).
    rewrite lookup_total_seq_lt by lia.
    unfold initial_particle, Particle.constructor. cbn [Particle.x Particle.y].
    match goal with |- context [src ?k * iw] => pose proof (Hsrc k) as H1 end.
    match goal with |- context [src ?k * ih] => pose proof (Hsrc k) as H2 end.
    split; nra.
Qed.

Lemma reachable_in_viewport getContext src idx inputs :
  0 <= iw -> 0 <= ih -> (forall i, 0 <= src i < 1) ->
  in_viewport iw ih
    (foldl (react cfg)
       (state_of (ParticleSystem.initParticleSystem cfg getContext iw ih src idx))
       inputs).
Proof.
  intros Hiw Hih Hsrc.
  apply run_preserves;
    [apply in_viewport_same_field|apply tick_state_in_viewport|].
  apply initParticleSystem_establishes;
    [apply in_viewport_same_field|apply tick_state_in_viewport|].
  by apply constructor_in_viewport.
Qed.

End Viewport.

(** ** Speeds *)

Lemma Rabs_le_iff a b : Rabs a <= b <-> - b <= a <= b.
Proof. unfold Rabs. destruct (Rcase_abs a); lra. Qed.

Lemma ratio_in_unit d r : 0 <= d < r -> 0 <= d / r < 1.
Proof.
  intros [Hd Hr]. assert (Hinv : 0 < / r) by (apply Rinv_0_lt_compat; lra).
  unfold Rdiv. split; [nra|].
  apply (Rmult_lt_reg_r r); [lra|].
  rewrite Rmult_assoc, Rinv_l by lra. lra.
Qed.

Section Speed.
Variable cfg : Config.
Variable B : R.
Hypothesis Hcfg : velocity_bound cfg B.

(** The pointer adds at most the larger of the two force constants. *)
Lemma pointer_force_speed mx my p :
  let F := Rmax (mouse_repulsionForce cfg) (mouse_attractionForce cfg) in
  Rabs (Particle.vx (pointer_force cfg mx my p) - Particle.vx p) <= F
  /\ Rabs (Particle.vy (pointer_force cfg mx my p) - Particle.vy p) <= F.
Proof.
  cbv zeta. destruct Hcfg as (_ & _ & _ & [HR HA] & [HFr HFa] & _).
  unfold pointer_force.
  set (dx := mx - Particle.x p). set (dy := my - Particle.y p).
  set (d := sqrt (dx * dx + dy * dy)).
  assert (Hd : 0 <= d) by apply sqrt_pos.
  pose proof (COS_bound (atan2 dy dx)) as Hcos.
  pose proof (SIN_bound (atan2 dy dx)) as Hsin.
  pose proof (Rmax_l (mouse_repulsionForce cfg) (mouse_attractionForce cfg)) as Hl.
  pose proof (Rmax_r (mouse_repulsionForce cfg) (mouse_attractionForce cfg)) as Hr.
  case_bool_decide as Hrep; [|case_bool_decide as Hatt].
  - set (f := mouse_repulsionForce cfg * (1 - d / mouse_repulsionRadius cfg)).
    assert (Hf : 0 <= f <= mouse_repulsionForce cfg).
    { unfold f.
      assert (0 <= d / mouse_repulsionRadius cfg < 1) by (apply ratio_in_unit; lra).
      nra. }
    cbn [Particle.applyForce Particle.set_vx Particle.set_vy Particle.vx Particle.vy].
    rewrite !Rabs_le_iff. split; nra.
  - set (f := mouse_attractionForce cfg * (d / mouse_attractionRadius cfg)).
    assert (Hf : 0 <= f <= mouse_attractionForce cfg).
    { unfold f.
      assert (0 <= d / mouse_attractionRadius cfg < 1) by (apply ratio_in_unit; lra).
      nra. }
    cbn [Particle.applyForce Particle.set_vx Particle.set_vy Particle.vx Particle.vy].
    rewrite !Rabs_le_iff. split; nra.
  - rewrite !Rminus_diag, Rabs_R0. split; lra.
Qed.

(** Friction and bounce bring the speed back below [B]. *)
Lemma update_speed W H p :
  let F := Rmax (mouse_repulsionForce cfg) (mouse_attractionForce cfg) in
  Rabs (Particle.vx p) <= B + F -> Rabs (Particle.vy p) <= B + F ->
  Rabs (Particle.vx (Particle.update cfg W H p)) <= B
  /\ Rabs (Particle.vy (Particle.update cfg W H p)) <= B.
Proof.
  cbv zeta. destruct Hcfg as (Hfr & Hg & Hb & _ & [HFr HFa] & HB & Hbound).
  set (F := Rmax _ _) in *.
  assert (HF : 0 <= F).
  { pose proof (Rmax_l (mouse_repulsionForce cfg) (mouse_attractionForce cfg)).
    unfold F. lra. }
  rewrite !Rabs_le_iff. intros Hvx Hvy.
  pose proof (update_x cfg W H p) as [Hx1 Hx2].
  pose proof (update_y cfg W H p) as [Hy1 Hy2].
  cbv zeta in *.
  set (v := Particle.vx p * physics_friction cfg) in *.
  set (u := (Particle.vy p + physics_gravity cfg) * physics_friction cfg) in *.
  assert (Hv : - B <= v <= B) by (unfold v; nra).
  assert (Hu : - B <= u <= B) by (unfold u; nra).
  split.
  - destruct (Rlt_dec (Particle.x p + v) 0) as [Hlt|Hge].
    { destruct Hx1 as [-> _]; [by left|]. nra. }
    destruct (Rgt_dec (Particle.x p + v) W) as [Hgt|Hle].
    { destruct Hx1 as [-> _]; [by right|]. nra. }
    destruct Hx2 as [-> _]; lra.
  - destruct (Rlt_dec (Particle.y p + u) 0) as [Hlt|Hge].
    { destruct Hy1 as [-> _]; [by left|]. nra. }
    destruct (Rgt_dec (Particle.y p + u) H) as [Hgt|Hle].
    { destruct Hy1 as [-> _]; [by right|]. nra. }
    destruct Hy2 as [-> _]; lra.
Qed.

Lemma slower_than_same_field w w' :
  heap w' = heap w -> particles w' = particles w ->
  innerWidth w' = innerWidth w -> innerHeight w' = innerHeight w ->
  slower_than B w -> slower_than B w'.
Proof. unfold slower_than, valid, deref. by intros -> -> _ _. Qed.

Lemma only_connections_velocity p p' :
  only_connections p p' ->
  Particle.vx p' = Particle.vx p /\ Particle.vy p' = Particle.vy p.
Proof. unfold only_connections. intros ->. by destruct p. Qed.

Lemma tick_state_slower_than w :
  slower_than B w -> slower_than B (tick_state cfg w).
Proof.
  intros [Hv Hslow]. split; [by apply tick_state_valid|].
  intros l Hl. unfold tick_state in *.
  set (w1 := ParticleSystem.applyMouseForces cfg w) in *.
  assert (Hv1 : valid w1) by by apply applyMouseForces_valid.
  rewrite updateConnections_particles in Hl.
  assert (Hl1 : l ∈ particles w1)
    by (by eapply elem_of_sublist, step_particles_sublist).
  assert (Hl0 : l ∈ particles w)
    by (unfold w1 in Hl1; by rewrite applyMouseForces_particles in Hl1).
  destruct (updateConnections_frame cfg (ParticleSystem.step cfg w1)) as [_ [_ Hoc]].
  destruct (only_connections_velocity _ _ (Hoc l)) as [Hx Hy].
  unfold deref. rewrite Hx, Hy.
  fold (deref l (ParticleSystem.step cfg w1)).
  rewrite step_deref by done.
  apply update_speed.
  - unfold w1. rewrite applyMouseForces_deref by done.
    destruct (Hslow l Hl0) as [Hvx _].
    pose proof (Rmax_l (mouse_repulsionForce cfg) (mouse_attractionForce cfg)).
    destruct Hcfg as (_ & _ & _ & _ & [HFr HFa] & _).
    destruct (isMouseOver w); [|lra].
    destruct (pointer_force_speed (mouseX w) (mouseY w) (deref l w)) as [Hd _].
    cbv zeta in Hd. apply Rabs_le_iff. apply Rabs_le_iff in Hvx, Hd. lra.
  - unfold w1. rewrite applyMouseForces_deref by done.
    destruct (Hslow l Hl0) as [_ Hvy].
    pose proof (Rmax_l (mouse_repulsionForce cfg) (mouse_attractionForce cfg)).
    destruct Hcfg as (_ & _ & _ & _ & [HFr HFa] & _).
    destruct (isMouseOver w); [|lra].
    destruct (pointer_force_speed (mouseX w) (mouseY w) (deref l w)) as [_ Hd].
    cbv zeta in Hd. apply Rabs_le_iff. apply Rabs_le_iff in Hvy, Hd. lra.
Qed.

Lemma constructor_slower_than getContext cw ch iw ih src idx :
  (forall i, 0 <= src i < 1) ->
  slower_than B (ParticleSystem.constructor cfg getContext cw ch iw ih src idx).
Proof.
  intros Hsrc. destruct Hcfg as (_ & _ & _ & _ & _ & HB & _).
  rewrite constructor_eq. cbv zeta. split.
  - split; simpl.
    + apply NoDup_seq.
    + rewrite length_fmap, length_seq. apply Forall_forall.
      intros b Hb. apply elem_of_seq in Hb. lia.
  - intros l Hl. simpl in Hl. apply elem_of_seq in Hl.
    unfold deref. cbn [heap].
    rewrite (list_lookup_total_fmap _ (Inhabited0 := Nat.inhabited))
      by (rewrite length_seq; lia).
    rewrite lookup_total_seq_lt by lia.
    unfold initial_particle, Particle.constructor. cbn [Particle.vx Particle.vy].
    match goal with |- context [(src ?k - _) * 2] => pose proof (Hsrc k) as H1 end.
    match goal with |- _ /\ Rabs ((src ?k - _) * 2) <= _ =>
      pose proof (Hsrc k) as H2 end.
    rewrite !Rabs_le_iff. split; lra.
Qed.

Lemma reachable_slower_than getContext iw ih src idx inputs :
  (forall i, 0 <= src i < 1) ->
  slower_than B
    (foldl (react cfg)
       (state_of (ParticleSystem.initParticleSystem cfg getContext iw ih src idx))
       inputs).
Proof.
  intros Hsrc.
  apply run_preserves;
    [apply slower_than_same_field|apply tick_state_slower_than|].
  apply initParticleSystem_establishes;
    [apply slower_than_same_field|apply tick_state_slower_than|].
  by apply constructor_slower_than.
Qed.

End Speed.

Lemma PARTICLE_CONFIG_velocity_bound : velocity_bound PARTICLE_CONFIG 15.
Proof.
  unfold velocity_bound. simpl.
  replace (Rmax (1 / 10) (2 / 100)) with (1 / 10)
    by (unfold Rmax; destruct (Rle_dec _ _); lra).
  lra.
Qed.

Section Invariant.
Variable cfg : Config.
Variables iw ih : R.

(** C2.  From the initialisation on, through any sequence of frames and
    pointer events, every particle of the field lies in
    [[0, width] x [0, height]], and a further step keeps it there: when the
    integrated position leaves the viewport through an edge, the velocity
    component is reflected and scaled by the bounce coefficient and the
    position is set back onto that edge; otherwise position and velocity are
    the integrated ones.  The width and the height may be zero.  The
    velocity components stay bounded: by [B] whenever the physical constants
    satisfy [velocity_bound cfg B], which those of [PARTICLE_CONFIG] do for
    [B = 15].  Numbers are real numbers in this development, so a bounded
    component is a finite one. *)
Theorem positions_stay_in_viewport getContext src idx (inputs : list Input) (l : loc) :
  0 <= iw -> 0 <= ih -> (forall i, 0 <= src i < 1) ->
  let w := foldl (react cfg)
             (state_of (ParticleSystem.initParticleSystem cfg getContext iw ih src idx))
             inputs in
  l ∈ particles w ->
  let p := deref l w in
  let p' := deref l (ParticleSystem.step cfg w) in
  let v := Particle.vx p * physics_friction cfg in
  let x1 := Particle.x p + v in
  let u := (Particle.vy p + physics_gravity cfg) * physics_friction cfg in
  let y1 := Particle.y p + u in
  (innerWidth w = iw /\ innerHeight w = ih)
  /\ in_bounds w p
  /\ in_bounds w p'
  /\ (x1 < 0 -> Particle.vx p' = v * - physics_bounce cfg /\ Particle.x p' = 0)
  /\ (iw < x1 -> Particle.vx p' = v * - physics_bounce cfg /\ Particle.x p' = iw)
  /\ (0 <= x1 <= iw -> Particle.vx p' = v /\ Particle.x p' = x1)
  /\ (y1 < 0 -> Particle.vy p' = u * - physics_bounce cfg /\ Particle.y p' = 0)
  /\ (ih < y1 -> Particle.vy p' = u * - physics_bounce cfg /\ Particle.y p' = ih)
  /\ (0 <= y1 <= ih -> Particle.vy p' = u /\ Particle.y p' = y1)
  /\ (forall B, velocity_bound cfg B ->
        Rabs (Particle.vx p) <= B /\ Rabs (Particle.vy p) <= B).
Proof.
  intros Hiw Hih Hsrc w Hl. cbv zeta.
  pose proof (reachable_in_viewport cfg iw ih getContext src idx inputs
                Hiw Hih Hsrc) as Hw. fold w in Hw.
  assert (Hslow : forall B, velocity_bound cfg B -> slower_than B w).
  { intros B HB. by apply reachable_slower_than. }
  destruct Hw as (Hv & [HW HH] & _ & Hin).
  rewrite step_deref by done. rewrite HW, HH.
  pose proof (update_x cfg iw ih (deref l w)) as [Hx1 Hx2].
  pose proof (update_y cfg iw ih (deref l w)) as [Hy1 Hy2].
  pose proof (update_in_viewport cfg iw ih (deref l w) Hiw Hih) as Hb.
  cbv zeta in *.
  split; [done|].
  split; [by apply Hin|]. split; [unfold in_bounds; by rewrite HW, HH|].
  repeat split.
  - by apply Hx1; left.
  - destruct Hx1 as [_ ->]; [by left|]. split_max_min.
  - by apply Hx1; right.
  - destruct Hx1 as [_ ->]; [by right|]. split_max_min.
  - by apply Hx2.
  - by apply Hx2.
  - by apply Hy1; left.
  - destruct Hy1 as [_ ->]; [by left|]. split_max_min.
  - by apply Hy1; right.
  - destruct Hy1 as [_ ->]; [by right|]. split_max_min.
  - by apply Hy2.
  - by apply Hy2.
  - by apply (Hslow B).
  - by apply (Hslow B).
Qed.

End Invariant.


(** ** The life of a particle over the ticks *)

Lemma only_connections_life p p' :
  only_connections p p' ->
  Particle.life p' = Particle.life p /\ Particle.decay p' = Particle.decay p.
Proof. unfold only_connections. intros ->. by destruct p. Qed.

Section Life.
Variable cfg : Config.

Lemma tick_state_life w l :
  valid w -> l ∈ particles w ->
  Particle.life (deref l (tick_state cfg w))
  = Particle.life (deref l w) - Particle.decay (deref l w)
  /\ Particle.decay (deref l (tick_state cfg w)) = Particle.decay (deref l w).
Proof.
  intros Hv Hl. unfold tick_state.
  set (w1 := ParticleSystem.applyMouseForces cfg w).
  assert (Hv1 : valid w1) by by apply applyMouseForces_valid.
  assert (Hl1 : l ∈ particles w1) by (unfold w1; by rewrite applyMouseForces_particles).
  destruct (updateConnections_frame cfg (ParticleSystem.step cfg w1)) as [_ [_ Hoc]].
  destruct (only_connections_life _ _ (Hoc l)) as [Hlife Hdecay].
  change (heap ?w' !!! l) with (deref l w') in Hlife, Hdecay.
  rewrite Hlife, Hdecay.
  rewrite step_deref by done. rewrite update_life, update_decay.
  unfold w1.
  rewrite (applyMouseForces_proj cfg Particle.life)
    by (intros; apply pointer_force_rest).
  rewrite (applyMouseForces_proj cfg Particle.decay)
    by (intros; apply pointer_force_rest).
  done.
Qed.

Lemma tick_state_particles w :
  valid w ->
  particles (tick_state cfg w)
  = filter (fun l => 0 < Particle.life (deref l w) - Particle.decay (deref l w))
      (particles w).
Proof.
  intros Hv. unfold tick_state.
  set (w1 := ParticleSystem.applyMouseForces cfg w).
  assert (Hv1 : valid w1) by by apply applyMouseForces_valid.
  rewrite updateConnections_particles, step_particles by done.
  replace (particles w1) with (particles w)
    by (unfold w1; by rewrite applyMouseForces_particles).
  apply filter_ext_in. intros l Hl.
  rewrite survives_iff, update_life. unfold w1.
  rewrite (applyMouseForces_proj cfg Particle.life)
    by (intros; apply pointer_force_rest).
  rewrite (applyMouseForces_proj cfg Particle.decay)
    by (intros; apply pointer_force_rest).
  done.
Qed.

(** A particle with life [1] and decay [d] that is still in the field after
    [k] ticks has the life [1 - k * d], which is then positive. *)
Lemma life_after_ticks w l d k :
  valid w -> Particle.life (deref l w) = 1 -> Particle.decay (deref l w) = d ->
  let wk := Nat.iter k (tick_state cfg) w in
  valid wk
  /\ (l ∈ particles wk ->
      l ∈ particles w
      /\ Particle.life (deref l wk) = 1 - INR k * d
      /\ Particle.decay (deref l wk) = d
      /\ ((0 < k)%nat -> 0 < 1 - INR k * d)).
Proof.
  intros Hv Hlife Hdecay. cbv zeta. induction k as [|k [IHv IH]].
  - simpl. split; [done|]. intros Hl.
    split; [done|]. split; [lra|]. split; [done|]. lia.
  - rewrite Nat.iter_succ. set (wk := Nat.iter k (tick_state cfg) w) in *.
    split; [by apply tick_state_valid|].
    intros Hl. rewrite tick_state_particles in Hl by done.
    apply list_elem_of_filter in Hl as [Hpos Hl].
    destruct (IH Hl) as (Hl0 & Hlk & Hdk & _).
    destruct (tick_state_life wk l IHv Hl) as [-> ->].
    rewrite Hlk, Hdk in *. rewrite S_INR.
    split; [done|]. split; [lra|]. split; [done|]. intros _. lra.
Qed.

End Life.


(** ** Explosions *)

Section Burst.
Variable cfg : Config.

Lemma createExplosion_valid x y w :
  valid w -> valid (ParticleSystem.createExplosion cfg x y w).
Proof.
  intros [Hnd Hv]. destruct (createExplosion_drop cfg x y w) as [k Hk].
  set (n := explosion_particleCount cfg) in *.
  assert (Hall : NoDup (particles w ++ seq (length (heap w)) n)).
  { apply NoDup_app. split; [done|]. split; [|apply NoDup_seq].
    intros a Ha Hb. eapply Forall_forall in Hv; [|done].
    apply elem_of_seq in Hb. lia. }
  assert (Hlt : Forall (fun l => (l < length (heap w) + n)%nat)
                  (particles w ++ seq (length (heap w)) n)).
  { apply Forall_app. split.
    - eapply Forall_impl; [done|]. simpl. lia.
    - apply Forall_forall. intros b Hb. apply elem_of_seq in Hb. lia. }
  pose proof (sublist_drop (particles w ++ seq (length (heap w)) n) k) as Hs.
  split.
  - rewrite Hk. by eapply sublist_NoDup.
  - rewrite Hk, createExplosion_heap, length_app.
    unfold burst. rewrite length_fmap, length_seq.
    eapply sublist_Forall_lt; [apply sublist_drop|done].
Qed.

Lemma createExplosion_deref x y w i :
  (i < explosion_particleCount cfg)%nat ->
  deref (length (heap w) + i) (ParticleSystem.createExplosion cfg x y w)
  = explosion_particle cfg x y (random_src w) (random_idx w) i.
Proof.
  intros Hi. unfold deref. rewrite createExplosion_heap.
  rewrite lookup_total_app_r by lia.
  replace (length (heap w) + i - length (heap w))%nat with i by lia.
  unfold burst.
  rewrite (list_lookup_total_fmap _ (Inhabited0 := Nat.inhabited))
    by (rewrite length_seq; lia).
  by rewrite lookup_total_seq_lt by lia.
Qed.

(** The new particles are in the field after the call when the burst is not
    larger than the cap. *)
Lemma createExplosion_new_in_field x y w i :
  (i < explosion_particleCount cfg)%nat ->
  (explosion_particleCount cfg <= particleCount cfg * 2)%nat ->
  (length (heap w) + i)%nat ∈ particles (ParticleSystem.createExplosion cfg x y w).
Proof.
  intros Hi Hcap. rewrite createExplosion_particles. cbv zeta.
  set (n := explosion_particleCount cfg) in *.
  set (all := particles w ++ seq (length (heap w)) n).
  assert (Hlen : length all = (length (particles w) + n)%nat)
    by (unfold all; by rewrite length_app, length_seq).
  assert (Hin : (length (heap w) + i)%nat ∈ seq (length (heap w)) n)
    by (apply elem_of_seq; lia).
  case_decide as Hcut.
  - rewrite Hlen. unfold all. rewrite drop_app_le by lia.
    apply elem_of_app. by right.
  - apply elem_of_app. by right.
Qed.


End Burst.

Lemma w_pair_valid : valid w_pair.
Proof. apply oldest_first_valid, w_pair_oldest_first. Qed.



(** ** The lifetime of a burst, counted in ticks *)

Section Lifetime.
Variable cfg : Config.

Lemma tick_state_keeps w l :
  valid w -> l ∈ particles w ->
  0 < Particle.life (deref l w) - Particle.decay (deref l w) ->
  l ∈ particles (tick_state cfg w).
Proof.
  intros Hv Hl Hpos. rewrite tick_state_particles by done.
  by apply list_elem_of_filter.
Qed.

(** A particle of a burst that is in the field after the explosion stays in
    it for every number of ticks below the lifetime: with the lifetime of
    1000 of [PARTICLE_CONFIG], a burst is on the screen for 1000 frames. *)
Lemma explosion_particle_alive_before_lifetime (x y : R) (w : World) (i k : nat) :
  valid w ->
  0 < explosion_lifetime cfg ->
  (i < explosion_particleCount cfg)%nat ->
  (explosion_particleCount cfg <= particleCount cfg * 2)%nat ->
  INR k < explosion_lifetime cfg ->
  (length (heap w) + i)%nat
  ∈ particles (Nat.iter k (tick_state cfg)
                 (ParticleSystem.createExplosion cfg x y w)).
Proof.
  intros Hv Hlife Hi Hcap Hk.
  set (w' := ParticleSystem.createExplosion cfg x y w).
  set (l := (length (heap w) + i)%nat).
  pose proof (createExplosion_valid cfg x y w Hv) as Hv'. fold w' in Hv'.
  assert (Hl : l ∈ particles w') by by apply createExplosion_new_in_field.
  assert (Hp : Particle.life (deref l w') = 1
               /\ Particle.decay (deref l w') = 1 / explosion_lifetime cfg).
  { unfold l, w'. by rewrite createExplosion_deref. }
  destruct Hp as [Hl1 Hd1].
  induction k as [|k IH]; [done|].
  rewrite S_INR in Hk. specialize (IH ltac:(lra)).
  rewrite Nat.iter_succ.
  destruct (life_after_ticks cfg w' l _ k Hv' Hl1 Hd1) as [Hvk Hin].
  destruct (Hin IH) as (_ & Hlk & Hdk & _).
  apply tick_state_keeps; [done|done|].
  rewrite Hlk, Hdk.
  assert ((INR k + 1) * (1 / explosion_lifetime cfg) < 1); [|lra].
  unfold Rdiv. rewrite Rmult_1_l.
  apply (Rmult_lt_reg_r (explosion_lifetime cfg)); [done|].
  rewrite Rmult_assoc, Rinv_l by lra. lra.
Qed.

End Lifetime.


(** ** The connections between particles *)

Section Pairs.
Variable cfg : Config.

Lemma elem_of_near h a bs b d :
  Connection.mk b d ∈ near cfg h a bs
  <-> b ∈ bs /\ d = dist h a b /\ dist h a b < connectionDistance cfg.
Proof.
  unfold near. rewrite list_elem_of_fmap. split.
  - intros (b' & Heq & Hin). apply list_elem_of_filter in Hin as [Hd Hin].
    injection Heq as -> ->. done.
  - intros (Hin & -> & Hd). exists b. split; [done|].
    by apply list_elem_of_filter.
Qed.

Lemma near_targets h a bs :
  Connection.particle <$> near cfg h a bs
  = filter (fun b => dist h a b < connectionDistance cfg) bs.
Proof.
  unfold near. rewrite <- list_fmap_compose.
  induction (filter _ bs) as [|b l IH]; [done|]. simpl. by f_equal.
Qed.

Lemma later_in_drop (ps : list nat) i j :
  (i < j < length ps)%nat -> ps !!! j ∈ drop (S i) ps.
Proof.
  intros Hij. apply list_elem_of_lookup. exists (j - S i)%nat.
  rewrite lookup_drop. replace (S i + (j - S i))%nat with j by lia.
  apply list_lookup_lookup_total_lt. lia.
Qed.

Lemma earlier_not_in_drop (ps : list nat) i j :
  NoDup ps -> (i < j < length ps)%nat -> ps !!! i ∉ drop (S j) ps.
Proof.
  intros Hnd Hij Hin. apply list_elem_of_lookup in Hin as [m Hm].
  rewrite lookup_drop in Hm.
  assert (Hi : ps !! i = Some (ps !!! i))
    by (apply list_lookup_lookup_total_lt; lia).
  pose proof (NoDup_lookup _ _ _ _ Hnd Hi Hm). lia.
Qed.

(** C5, as the code has it.  For two particles of the field, the one at
    index [i] before the one at index [j]: the connections of the earlier
    one are its connections to the later particles of the array that are
    nearer than the connection distance, in array order; so the pair is
    recorded exactly when its Euclidean distance is below the threshold,
    once, with that distance, in the list of the earlier particle; the list
    of the later particle never has an entry for the earlier one.  The
    distance itself does not depend on the order of the two particles, and
    the positions are not changed. *)
Theorem updateConnections_records_each_pair_once (w : World) (i j : nat) :
  valid w -> (i < j < length (particles w))%nat ->
  let w' := ParticleSystem.updateConnections cfg w in
  let a := particles w !!! i in
  let b := particles w !!! j in
  let d := dist (heap w) a b in
  Particle.connections (deref a w')
  = near cfg (heap w) a (drop (S i) (particles w))
  /\ (d < connectionDistance cfg -> connected w' a b d)
  /\ (forall d', connected w' a b d' -> d' = d /\ d < connectionDistance cfg)
  /\ NoDup (Connection.particle <$> Particle.connections (deref a w'))
  /\ (forall d', ~ connected w' b a d')
  /\ dist (heap w) b a = d
  /\ dist (heap w') a b = d.
Proof.
  intros Hv Hij. cbv zeta. pose proof Hv as [Hnd Hlt].
  unfold connected.
  rewrite !updateConnections_connections by (done || lia).
  split; [done|]. split.
  { intros Hd. apply elem_of_near. split; [by apply later_in_drop|done]. }
  split.
  { intros d' Hd'. apply elem_of_near in Hd' as (_ & -> & Hd). done. }
  split.
  { rewrite near_targets. apply NoDup_filter.
    pose proof (sublist_drop (particles w) (S i)) as Hs.
    by eapply sublist_NoDup. }
  split.
  { intros d' Hd'. apply elem_of_near in Hd' as (Hin & _).
    by eapply earlier_not_in_drop. }
  split; [apply dist_sym|].
  apply dist_only_connections.
  by destruct (updateConnections_frame cfg w) as [_ Hoc].
Qed.

End Pairs.

Lemma dist_w_pair : dist (heap w_pair) 0 1 = 10.
Proof.
  unfold dist. simpl.
  replace ((0 - 10) * (0 - 10) + (0 - 0) * (0 - 0)) with (10 * 10) by lra.
  apply sqrt_square. lra.
Qed.

Lemma updateConnections_records_each_pair_once_witness :
  valid w_pair /\ (0 < 1 < length (particles w_pair))%nat
  /\ connected (ParticleSystem.updateConnections PARTICLE_CONFIG w_pair) 0 1 10.
Proof.
  assert (Hij : (0 < 1 < length (particles w_pair))%nat) by (simpl; lia).
  split; [exact w_pair_valid|]. split; [exact Hij|].
  destruct (updateConnections_records_each_pair_once PARTICLE_CONFIG w_pair 0 1
              w_pair_valid Hij) as (_ & Hrec & _).
  rewrite <- dist_w_pair. apply Hrec.
  change (particles w_pair !!! 0%nat) with 0%nat.
  change (particles w_pair !!! 1%nat) with 1%nat.
  rewrite dist_w_pair. simpl. lra.
Defined.

(** C5, as the specification states it, fails: of two particles ten pixels
    apart the first is connected to the second and the second has no
    connection at all. *)
Lemma connections_not_symmetric :
  ~ symmetric_connections (ParticleSystem.updateConnections PARTICLE_CONFIG w_pair).
Proof.
  intros Hsym.
  pose proof (updateConnections_connections PARTICLE_CONFIG w_pair 0
                w_pair_valid ltac:(simpl; lia)) as H0.
  pose proof (updateConnections_connections PARTICLE_CONFIG w_pair 1
                w_pair_valid ltac:(simpl; lia)) as H1.
  change (particles w_pair !!! 0%nat) with 0%nat in H0.
  change (particles w_pair !!! 1%nat) with 1%nat in H1.
  change (drop 1 (particles w_pair)) with [1%nat] in H0.
  change (drop 2 (particles w_pair)) with (@nil nat) in H1.
  assert (Hc : connected (ParticleSystem.updateConnections PARTICLE_CONFIG w_pair)
                 0 1 10).
  { unfold connected. rewrite H0. apply elem_of_near.
    split; [by left|]. rewrite dist_w_pair. split; [done|]. simpl. lra. }
  apply Hsym in Hc. unfold connected in Hc. rewrite H1 in Hc.
  by apply elem_of_nil in Hc.
Qed.


(** ** The order of the sub-steps of a tick *)

Section Order_of_tick.
Variable cfg : Config.





End Order_of_tick.



(** ** Resizing *)

Section Resize.
Variable cfg : Config.

(** C8, as the code has it.  The resize handler sets the size of the
    drawing surface to the size of the window and leaves every particle
    where it is, inside the new bounds or not; the next step brings every
    particle of the field into the new bounds. *)
Theorem handleResize_only_resizes_canvas (iw ih : R) (w : World) :
  valid w -> 0 <= iw -> 0 <= ih ->
  let w' := ParticleSystem.resize iw ih w in
  heap w' = heap w /\ particles w' = particles w
  /\ (canvas_width w' = iw /\ canvas_height w' = ih)
  /\ forall l, l ∈ particles w' ->
       in_bounds w' (deref l (ParticleSystem.step cfg w')).
Proof.
  intros Hv Hiw Hih. cbv zeta.
  split; [done|]. split; [done|]. split; [done|].
  intros l Hl. rewrite step_deref by done.
  by apply update_in_viewport.
Qed.

End Resize.

Lemma w_wide_valid : valid w_wide.
Proof. split; simpl; [apply NoDup_singleton|repeat constructor]. Qed.

Lemma handleResize_only_resizes_canvas_witness :
  valid w_wide /\ 0 <= 100 /\ 0 <= 100
  /\ heap (ParticleSystem.resize 100 100 w_wide) = heap w_wide.
Proof.
  assert (H100 : 0 <= 100) by lra.
  split; [exact w_wide_valid|]. split; [exact H100|]. split; [exact H100|].
  apply (handleResize_only_resizes_canvas PARTICLE_CONFIG 100 100 w_wide
           w_wide_valid H100 H100).
Defined.

(** C8, as the specification states it, fails: a particle at [(500, 10)] is
    still there after the window has shrunk to 100 by 100. *)
Lemma handleResize_does_not_clamp :
  ~ in_bounds (ParticleSystem.resize 100 100 w_wide)
      (deref 0 (ParticleSystem.resize 100 100 w_wide)).
Proof. unfold in_bounds. simpl. lra. Qed.

(** ** Exceptions in a tick *)

Section Exceptions.
Variable cfg : Config.


Lemma frame_None w :
  ctx w = None -> ParticleSystem.frame cfg w = set_pending 0 w.
Proof.
  intros Hc. unfold ParticleSystem.frame.
  induction (pending w) as [|n IH]; [done|].
  simpl. rewrite IH. unfold ParticleSystem.run_callback.
  by rewrite animate_None.
Qed.


End Exceptions.




(** ** The direction of the pointer force *)

Lemma sqrt_sum_squares x y :
  x <> 0 -> sqrt (x * x + y * y) = Rabs x * sqrt (1 + (y / x)²).
Proof.
  intros Hx.
  replace (x * x + y * y) with (x² * (1 + (y / x)²))
    by (unfold Rsqr; field; done).
  rewrite sqrt_mult_alt by apply Rle_0_sqr.
  by rewrite sqrt_Rsqr_abs.
Qed.

Lemma sqrt_one_plus_sqr_pos t : 0 < sqrt (1 + t²).
Proof. apply sqrt_lt_R0. pose proof (Rle_0_sqr t). lra. Qed.

(** [(cos, sin)] of [Math.atan2(y, x)] is the unit vector along [(x, y)]. *)
Lemma cos_sin_atan2 x y :
  x <> 0 \/ y <> 0 ->
  cos (atan2 y x) = x / sqrt (x * x + y * y)
  /\ sin (atan2 y x) = y / sqrt (x * x + y * y).
Proof.
  intros Hxy. unfold atan2.
  pose proof (sqrt_one_plus_sqr_pos (y / x)) as Hs.
  case_bool_decide as Hpos.
  { rewrite cos_atan, sin_atan, sqrt_sum_squares by lra.
    rewrite Rabs_right by lra. split; field; lra. }
  case_bool_decide as Hneg.
  { rewrite sqrt_sum_squares by lra. rewrite Rabs_left by lra.
    case_bool_decide.
    - rewrite neg_cos, neg_sin, cos_atan, sin_atan. split; field; lra.
    - rewrite cos_minus, sin_minus, cos_PI, sin_PI, cos_atan, sin_atan.
      split; field; lra. }
  assert (x = 0) as -> by lra.
  replace (0 * 0 + y * y) with (y * y) by lra.
  case_bool_decide as Hy.
  { rewrite cos_PI2, sin_PI2, sqrt_square by lra. split; field; lra. }
  case_bool_decide as Hy'.
  { rewrite cos_neg, sin_neg, cos_PI2, sin_PI2.
    replace (y * y) with (- y * - y) by lra. rewrite sqrt_square by lra.
    split; field; lra. }
  lra.
Qed.

Section Direction.
Variable cfg : Config.

(** What [applyMouseForces()] does to a particle that is not exactly at the
    pointer: in both branches the velocity gains the magnitude of the branch
    times the unit vector that points from the particle to the pointer. *)
Lemma pointer_force_toward_pointer mx my p :
  let dx := mx - Particle.x p in
  let dy := my - Particle.y p in
  let d := sqrt (dx * dx + dy * dy) in
  let p' := pointer_force cfg mx my p in
  let repulsion := mouse_repulsionForce cfg * (1 - d / mouse_repulsionRadius cfg) in
  let attraction := mouse_attractionForce cfg * (d / mouse_attractionRadius cfg) in
  dx <> 0 \/ dy <> 0 ->
  (d < mouse_repulsionRadius cfg ->
     Particle.vx p' = Particle.vx p + dx / d * repulsion
     /\ Particle.vy p' = Particle.vy p + dy / d * repulsion)
  /\ (~ d < mouse_repulsionRadius cfg -> d < mouse_attractionRadius cfg ->
        Particle.vx p' = Particle.vx p + dx / d * attraction
        /\ Particle.vy p' = Particle.vy p + dy / d * attraction)
  /\ (~ d < mouse_repulsionRadius cfg -> ~ d < mouse_attractionRadius cfg ->
        p' = p).
Proof.
  cbv zeta. intros Hd.
  destruct (cos_sin_atan2 _ _ Hd) as [Hcos Hsin].
  unfold pointer_force. rewrite Hcos, Hsin.
  repeat case_bool_decide; simpl; repeat split; intros; try done.
Qed.

End Direction.

(** C1, at an input where the code departs from it.  The particle is at
    the origin, at rest; the pointer is active, ten pixels to its right,
    inside the repulsion radius of 50.  The force has the magnitude
    [0.1 * (1 - 10/50) = 0.08], it changes the velocity only, and it points
    to the right: towards the pointer, not away from it. *)
Theorem repulsion_pulls_towards_pointer :
  let w' := ParticleSystem.applyMouseForces PARTICLE_CONFIG w_pointer in
  mouseX w_pointer - Particle.x (deref 0 w_pointer) = 10
  /\ (Particle.vx (deref 0 w') = 8 / 100 /\ Particle.vy (deref 0 w') = 0)
  /\ (Particle.x (deref 0 w') = 0 /\ Particle.y (deref 0 w') = 0).
Proof.
  cbv zeta. rewrite applyMouseForces_eq.
  change (isMouseOver w_pointer) with true. cbv iota.
  unfold deref. unfold set_heap. cbn [heap].
  change (heap w_pointer) with [resting 0 0 1].
  change (particles w_pointer) with [0%nat].
  change (mouseX w_pointer) with 10. change (mouseY w_pointer) with 0.
  unfold alter_all. cbn [foldl alter list_alter lookup_total list_lookup_total].
  pose proof (pointer_force_toward_pointer PARTICLE_CONFIG 10 0 (resting 0 0 1))
    as Hf. cbv zeta in Hf.
  change (Particle.x (resting 0 0 1)) with 0 in *.
  change (Particle.y (resting 0 0 1)) with 0 in *.
  change (Particle.vx (resting 0 0 1)) with 0 in *.
  change (Particle.vy (resting 0 0 1)) with 0 in *.
  assert (Hd : sqrt ((10 - 0) * (10 - 0) + (0 - 0) * (0 - 0)) = 10).
  { replace ((10 - 0) * (10 - 0) + (0 - 0) * (0 - 0)) with (10 * 10) by lra.
    apply sqrt_square. lra. }
  rewrite Hd in Hf.
  destruct Hf as [Hrep _]; [left; lra|].
  destruct Hrep as [Hvx Hvy]; [simpl; lra|].
  split; [lra|]. split.
  - rewrite Hvx, Hvy. simpl. split; field.
  - by destruct (pointer_force_rest PARTICLE_CONFIG 10 0 (resting 0 0 1)) as (-> & -> & _).
Qed.


(** ** A run in a window of size zero *)

Lemma constructor_deref cfg getContext cw ch iw ih src idx l :
  (l < particleCount cfg)%nat ->
  deref l (ParticleSystem.constructor cfg getContext cw ch iw ih src idx)
  = initial_particle cfg iw ih src idx l.
Proof.
  intros Hl. rewrite constructor_eq. cbv zeta. unfold deref. cbn [heap].
  rewrite (list_lookup_total_fmap _ (Inhabited0 := Nat.inhabited))
    by (rewrite length_seq; lia).
  by rewrite lookup_total_seq_lt by lia.
Qed.

Lemma initParticleSystem_Some cfg log iw ih src idx :
  state_of (ParticleSystem.initParticleSystem cfg (Some log) iw ih src idx)
  = ParticleSystem.run_callback cfg
      (ParticleSystem.handleResize
         (ParticleSystem.constructor cfg (Some log) 300 150 iw ih src idx)).
Proof.
  unfold ParticleSystem.initParticleSystem, ParticleSystem.start.
  by erewrite bind_Ok by reflexivity.
Qed.

Lemma handleResize_valid w : valid w -> valid (ParticleSystem.handleResize w).
Proof. done. Qed.

Lemma handleResize_ctx w : ctx (ParticleSystem.handleResize w) = ctx w.
Proof. done. Qed.

Lemma handleResize_particles w :
  particles (ParticleSystem.handleResize w) = particles w.
Proof. done. Qed.

Lemma handleResize_deref l w : deref l (ParticleSystem.handleResize w) = deref l w.
Proof. done. Qed.

(** A particle whose life stays positive is kept by a tick. *)
Lemma run_callback_keeps cfg w log l :
  valid w -> ctx w = Some log -> l ∈ particles w ->
  0 < Particle.life (deref l w) - Particle.decay (deref l w) ->
  l ∈ particles (ParticleSystem.run_callback cfg w).
Proof.
  intros Hv Hc Hl Hpos. unfold ParticleSystem.run_callback.
  rewrite <- (set_ctx_id w (Some log)) by done.
  rewrite animate_Some. cbv zeta.
  change (particles (set_pending ?n (set_ctx ?c ?w'))) with (particles w').
  rewrite tick_state_particles by done.
  by apply list_elem_of_filter.
Qed.

Lemma first_particle_survives_first_tick :
  0%nat ∈ particles
    (state_of (ParticleSystem.initParticleSystem PARTICLE_CONFIG (Some [])
                 0 0 (fun _ => 0) 0)).
Proof.
  rewrite initParticleSystem_Some. apply (run_callback_keeps _ _ []).
  - apply handleResize_valid, oldest_first_valid, constructor_oldest_first.
  - rewrite handleResize_ctx, constructor_eq. reflexivity.
  - rewrite handleResize_particles, constructor_eq. cbv zeta. cbn [particles].
    apply elem_of_seq. simpl. lia.
  - rewrite handleResize_deref, constructor_deref by (simpl; lia).
    unfold initial_particle, Particle.constructor.
    cbn [Particle.life Particle.decay]. lra.
Qed.

Lemma foldl_one {A B} (f : A -> B -> A) (a : A) (b : B) : foldl f a [b] = f a b.
Proof. done. Qed.

Lemma particles_mousemove cx cy w :
  particles (ParticleSystem.mousemove cx cy w) = particles w.
Proof. done. Qed.

Lemma positions_stay_in_viewport_witness :
  0 <= 0
  /\ (forall i : nat, 0 <= (fun _ : nat => 0) i < 1)
  /\ 0%nat ∈ particles
       (foldl (react PARTICLE_CONFIG)
          (state_of (ParticleSystem.initParticleSystem PARTICLE_CONFIG (Some [])
                       0 0 (fun _ => 0) 0))
          [MouseMove 3 4])
  /\ in_bounds
       (foldl (react PARTICLE_CONFIG)
          (state_of (ParticleSystem.initParticleSystem PARTICLE_CONFIG (Some [])
                       0 0 (fun _ => 0) 0))
          [MouseMove 3 4])
       (deref 0
          (foldl (react PARTICLE_CONFIG)
          (state_of (ParticleSystem.initParticleSystem PARTICLE_CONFIG (Some [])
                       0 0 (fun _ => 0) 0))
          [MouseMove 3 4]))
  /\ velocity_bound PARTICLE_CONFIG 15
  /\ Rabs (Particle.vx
             (deref 0
                (foldl (react PARTICLE_CONFIG)
          (state_of (ParticleSystem.initParticleSystem PARTICLE_CONFIG (Some [])
                       0 0 (fun _ => 0) 0))
          [MouseMove 3 4]))) <= 15.
Proof.
  assert (H0 : 0 <= 0) by lra.
  assert (Hsrc : forall i : nat, 0 <= (fun _ : nat => 0) i < 1)
    by (intros i; lra).
  assert (Hin : 0%nat ∈ particles
       (foldl (react PARTICLE_CONFIG)
          (state_of (ParticleSystem.initParticleSystem PARTICLE_CONFIG (Some [])
                       0 0 (fun _ => 0) 0))
          [MouseMove 3 4])).
  { rewrite foldl_one. cbn [react]. rewrite particles_mousemove.
    exact first_particle_survives_first_tick. }
  split; [exact H0|]. split; [exact Hsrc|]. split; [exact Hin|].
  destruct (positions_stay_in_viewport PARTICLE_CONFIG 0 0 (Some [])
              (fun _ => 0) 0%nat [MouseMove 3 4] 0%nat H0 H0 Hsrc Hin)
    as (_ & Hb & _ & _ & _ & _ & _ & _ & _ & Hv).
  split; [exact Hb|]. split; [exact PARTICLE_CONFIG_velocity_bound|].
  exact (proj1 (Hv 15 PARTICLE_CONFIG_velocity_bound)).
Defined.


(** * Further properties of the code *)

(** ** New particles *)

Lemma floor_index_in_range (r : R) (n : nat) :
  0 <= r < 1 -> (0 < n)%nat ->
  (0 <= floor (r * INR n) < Z.of_nat n)%Z.
Proof.
  intros Hr Hn. unfold floor.
  destruct (base_Int_part (r * INR n)) as [Hle Hgt].
  assert (Hpos : 0 < INR n) by (apply lt_0_INR; lia).
  rewrite INR_IZR_INZ in *.
  split.
  - apply Z.lt_succ_r, lt_IZR. rewrite succ_IZR. nra.
  - apply lt_IZR. nra.
Qed.

Lemma index_in_range {A} (a : list A) (i : Z) :
  (0 <= i < Z.of_nat (length a))%Z -> exists c, index a i = Some c /\ c ∈ a.
Proof.
  intros Hi. unfold index.
  destruct (Z.ltb_spec i 0) as [Hneg|_]; [lia|].
  destruct (lookup_lt_is_Some_2 a (Z.to_nat i) ltac:(lia)) as [c Hc].
  exists c. split; [done|]. by eapply list_elem_of_lookup_2.
Qed.

(** X1.  A particle made by [new Particle(x, y)] from draws of
    [Math.random()] in [[0, 1)]: it is at [(x, y)]; both velocity
    components lie in [[-1, 1)]; its size lies between the configured
    minimum and maximum; its colour is one of the palette, never
    [undefined], when the palette is not empty; its life and opacity are
    [1], so that it is not dead; its decay lies in [[0.005, 0.01)]; it has
    no connections. *)
Theorem new_particle_ranges (cfg : Config) (x0 y0 r1 r2 r3 r4 r5 : R) :
  0 <= r1 < 1 -> 0 <= r2 < 1 -> 0 <= r3 < 1 -> 0 <= r4 < 1 -> 0 <= r5 < 1 ->
  particleSize_min cfg <= particleSize_max cfg ->
  colors cfg <> [] ->
  let p := Particle.constructor cfg x0 y0 r1 r2 r3 r4 r5 in
  (Particle.x p = x0 /\ Particle.y p = y0)
  /\ (-1 <= Particle.vx p < 1 /\ -1 <= Particle.vy p < 1)
  /\ (particleSize_min cfg <= Particle.size p <= particleSize_max cfg)
  /\ (exists c, Particle.color p = Some c /\ c ∈ colors cfg)
  /\ (Particle.life p = 1 /\ Particle.alpha p = 1 /\ Particle.isDead p = false)
  /\ (5 / 1000 <= Particle.decay p < 10 / 1000)
  /\ Particle.connections p = [].
Proof.
  intros H1 H2 H3 H4 H5 Hsize Hcolors. cbv zeta.
  unfold Particle.constructor, Particle.isDead.
  cbn [Particle.x Particle.y Particle.vx Particle.vy Particle.size
       Particle.color Particle.life Particle.alpha Particle.decay
       Particle.connections].
  split; [done|]. split; [lra|]. split; [nra|]. split.
  { apply index_in_range, floor_index_in_range; [done|].
    destruct (colors cfg); [done|simpl; lia]. }
  split.
  { split; [done|]. split; [done|]. apply bool_decide_eq_false. lra. }
  split; [lra|done].
Qed.

Lemma new_particle_ranges_witness :
  0 <= 1 / 2 < 1
  /\ particleSize_min PARTICLE_CONFIG <= particleSize_max PARTICLE_CONFIG
  /\ colors PARTICLE_CONFIG <> []
  /\ exists c,
       Particle.color
         (Particle.constructor PARTICLE_CONFIG 3 4 (1 / 2) (1 / 2) (1 / 2)
            (1 / 2) (1 / 2)) = Some c
       /\ c ∈ colors PARTICLE_CONFIG.
Proof.
  assert (Hr : 0 <= 1 / 2 < 1) by lra.
  assert (Hs : particleSize_min PARTICLE_CONFIG <= particleSize_max PARTICLE_CONFIG)
    by (simpl; lra).
  assert (Hc : colors PARTICLE_CONFIG <> []) by done.
  split; [exact Hr|]. split; [exact Hs|]. split; [exact Hc|].
  exact (proj1 (proj2 (proj2 (proj2
    (new_particle_ranges PARTICLE_CONFIG 3 4 (1 / 2) (1 / 2) (1 / 2) (1 / 2)
       (1 / 2) Hr Hr Hr Hr Hr Hs Hc))))).
Defined.

(** ** The constructed system *)

(** X2.  [new ParticleSystem(canvas)] leaves a field of exactly
    [particleCount] particles, one object each, in the order of their
    creation; it has made seven draws of [Math.random()] per particle; the
    pointer is at the origin and inactive, so that [applyMouseForces()]
    does nothing yet; no frame is requested; the canvas still has the size
    it came with. *)
Theorem constructor_initial_field (cfg : Config)
    (getContext : option (list CanvasOp)) (cw ch iw ih : R) (src : nat -> R)
    (idx : nat) :
  let w := ParticleSystem.constructor cfg getContext cw ch iw ih src idx in
  particles w = seq 0 (particleCount cfg)
  /\ length (heap w) = particleCount cfg
  /\ random_idx w = (idx + 7 * particleCount cfg)%nat
  /\ (mouseX w = 0 /\ mouseY w = 0 /\ isMouseOver w = false)
  /\ ParticleSystem.applyMouseForces cfg w = w
  /\ pending w = 0%nat
  /\ (canvas_width w = cw /\ canvas_height w = ch)
  /\ ctx w = getContext.
Proof.
  cbv zeta. rewrite applyMouseForces_eq, constructor_eq. cbv zeta.
  cbn [particles heap random_idx mouseX mouseY isMouseOver pending
       canvas_width canvas_height ctx].
  by rewrite length_fmap, length_seq.
Qed.


(** ** The radius test *)

Lemma sqrt_lt_iff s r : 0 <= s -> sqrt s < r <-> 0 < r /\ s < r * r.
Proof.
  intros Hs. pose proof (sqrt_pos s) as Hpos.
  pose proof (sqrt_sqrt s Hs) as Hsq. split.
  - intros Hlt. split; [lra|nra].
  - intros [Hr Hlt]. rewrite <- (sqrt_square r) by lra.
    apply sqrt_lt_1; nra.
Qed.

(** X3.  [isWithinRadius(x, y, radius)] answers [true] exactly when the
    radius is positive and the squared distance of the particle to
    [(x, y)] is below the squared radius; so never for a radius of zero or
    less, at the particle's own position for every positive radius, and
    for every larger radius once it does for one. *)
Theorem isWithinRadius_spec (x0 y0 radius : R) (p : Particle.t) :
  let dx := Particle.x p - x0 in
  let dy := Particle.y p - y0 in
  (Particle.isWithinRadius x0 y0 radius p = true
   <-> 0 < radius /\ dx * dx + dy * dy < radius * radius)
  /\ (radius <= 0 -> Particle.isWithinRadius x0 y0 radius p = false)
  /\ (Particle.isWithinRadius (Particle.x p) (Particle.y p) radius p = true
      <-> 0 < radius)
  /\ (forall radius', radius <= radius' ->
        Particle.isWithinRadius x0 y0 radius p = true ->
        Particle.isWithinRadius x0 y0 radius' p = true).
Proof.
  cbv zeta. unfold Particle.isWithinRadius.
  set (dx := Particle.x p - x0). set (dy := Particle.y p - y0).
  assert (Hs : 0 <= dx * dx + dy * dy) by nra.
  split; [|split; [|split]].
  - by rewrite bool_decide_eq_true, sqrt_lt_iff.
  - intros Hr. apply bool_decide_eq_false. rewrite sqrt_lt_iff by done. lra.
  - rewrite bool_decide_eq_true, sqrt_lt_iff by nra. split; [tauto|].
    intros Hr. split; [done|]. nra.
  - intros r' Hle. rewrite !bool_decide_eq_true. lra.
Qed.

(** ** The calls of a tick on the drawing context *)

Lemma stack_depth_app d d' a b :
  stack_depth d a = Some d' -> stack_depth d (a ++ b) = stack_depth d' b.
Proof.
  revert d. induction a as [|op a IH]; intros d; simpl.
  - by intros [= ->].
  - destruct op; try apply IH. destruct d; [done|apply IH].
Qed.

Lemma stack_depth_bind {A} (f : A -> list CanvasOp) (xs : list A) d :
  (forall x d, stack_depth d (f x) = Some d) ->
  stack_depth d (xs ≫= f) = Some d.
Proof.
  intros Hf. induction xs as [|x xs IH]; [done|].
  rewrite bind_cons. by rewrite (stack_depth_app d d).
Qed.

Lemma count_calls_app f a b :
  count_calls f (a ++ b) = (count_calls f a + count_calls f b)%nat.
Proof. induction a as [|op a IH]; simpl; [done|]. rewrite IH. lia. Qed.

Lemma count_calls_bind {A} g (f : A -> list CanvasOp) (xs : list A) :
  count_calls g (xs ≫= f) = sum_list ((fun x => count_calls g (f x)) <$> xs).
Proof.
  induction xs as [|x xs IH]; [done|].
  rewrite bind_cons, count_calls_app, IH. done.
Qed.

Lemma length_bind {A B} (f : A -> list B) (xs : list A) :
  length (xs ≫= f) = sum_list ((fun x => length (f x)) <$> xs).
Proof.
  induction xs as [|x xs IH]; [done|].
  rewrite bind_cons, length_app, IH. done.
Qed.

Lemma sum_list_const {A} (xs : list A) (k : nat) :
  sum_list ((fun _ => k) <$> xs) = (k * length xs)%nat.
Proof. induction xs as [|x xs IH]; csimpl; [lia|]. rewrite IH. lia. Qed.

Lemma sum_list_scale {A} (g : A -> nat) (xs : list A) (k : nat) :
  sum_list ((fun x => k * g x)%nat <$> xs) = (k * sum_list (g <$> xs))%nat.
Proof. induction xs as [|x xs IH]; csimpl; [lia|]. rewrite IH. lia. Qed.

Lemma sum_list_zero {A} (xs : list A) : sum_list ((fun _ => 0%nat) <$> xs) = 0%nat.
Proof. by induction xs. Qed.

Lemma connection_count_same_field w w' :
  heap w' = heap w -> particles w' = particles w ->
  connection_count w' = connection_count w.
Proof. unfold connection_count, deref. by intros -> ->. Qed.

Section Calls.
Variable cfg : Config.

Lemma stack_depth_connection_ops w d :
  stack_depth d (connection_ops cfg w) = Some d.
Proof.
  unfold connection_ops. simpl.
  rewrite (stack_depth_app (S d) (S d)); [done|].
  apply stack_depth_bind. intros l d'.
  apply stack_depth_bind. done.
Qed.

Lemma stack_depth_particle_ops w d : stack_depth d (particle_ops w) = Some d.
Proof. apply stack_depth_bind. done. Qed.

(** X4.  A tick that has a drawing context makes its calls in this order:
    it first clears the canvas in its whole size, and every [save()] it
    makes is undone by a [restore()] of its own, so that the stack of
    saved drawing states has the depth it had before the tick, whatever
    the number of particles and connections. *)
Theorem animate_balances_save_restore (w : World) (log : list CanvasOp)
    (d : nat) :
  exists ops w',
    ParticleSystem.animate cfg (set_ctx (Some log) w) = Ok tt w'
    /\ ctx w' = Some (log ++ ops)
    /\ head ops = Some (ClearRect 0 0 (canvas_width w) (canvas_height w))
    /\ stack_depth d ops = Some d.
Proof.
  rewrite animate_Some. cbv zeta. eexists _, _.
  split; [reflexivity|]. split; [reflexivity|]. split; [done|].
  set (w' := tick_state cfg w).
  change (stack_depth d (connection_ops cfg w' ++ particle_ops w') = Some d).
  rewrite (stack_depth_app d d) by apply stack_depth_connection_ops.
  apply stack_depth_particle_ops.
Qed.

Lemma count_line_ops g w k :
  (forall l c, count_calls g (line_ops cfg w l c) = k) ->
  count_calls g
    (l ← particles w; c ← Particle.connections (deref l w); line_ops cfg w l c)
  = (k * connection_count w)%nat.
Proof.
  intros Hk. rewrite count_calls_bind. unfold connection_count.
  rewrite <- sum_list_scale. f_equal. apply list_fmap_ext. intros _ l _.
  rewrite count_calls_bind.
  rewrite (list_fmap_ext _ (fun _ => k) _ (λ _ c _, Hk l c)).
  rewrite sum_list_const. lia.
Qed.

Lemma length_line_ops w :
  length
    (l ← particles w; c ← Particle.connections (deref l w); line_ops cfg w l c)
  = (5 * connection_count w)%nat.
Proof.
  rewrite length_bind. unfold connection_count.
  rewrite <- sum_list_scale. f_equal. apply list_fmap_ext. intros _ l _.
  rewrite length_bind.
  rewrite (list_fmap_ext _ (fun _ => 5%nat) _ (λ _ c _, eq_refl)).
  rewrite sum_list_const. lia.
Qed.

Lemma count_connection_ops w :
  count_calls is_Stroke (connection_ops cfg w) = connection_count w
  /\ count_calls is_Fill (connection_ops cfg w) = 0%nat
  /\ count_calls is_ClearRect (connection_ops cfg w) = 0%nat
  /\ length (connection_ops cfg w) = (4 + 5 * connection_count w)%nat.
Proof.
  unfold connection_ops.
  rewrite !count_calls_app, !length_app, length_line_ops.
  rewrite (count_line_ops is_Stroke w 1), (count_line_ops is_Fill w 0),
    (count_line_ops is_ClearRect w 0) by done.
  simpl. lia.
Qed.

Lemma count_particle_ops w :
  count_calls is_Stroke (particle_ops w) = 0%nat
  /\ count_calls is_Fill (particle_ops w) = length (particles w)
  /\ count_calls is_ClearRect (particle_ops w) = 0%nat
  /\ length (particle_ops w) = (7 * length (particles w))%nat.
Proof.
  unfold particle_ops. rewrite !count_calls_bind, length_bind. simpl.
  rewrite sum_list_zero, !sum_list_const. lia.
Qed.

(** X5.  A tick that has a drawing context clears the canvas once,
    strokes one line for every connection recorded in the field it
    leaves, and fills one disc for every particle of that field; with the
    settings around them that makes [5 + 5 c + 7 n] calls for [c]
    connections and [n] particles. *)
Theorem animate_draws_each_line_and_disc_once (w : World)
    (log : list CanvasOp) :
  exists ops w',
    ParticleSystem.animate cfg (set_ctx (Some log) w) = Ok tt w'
    /\ ctx w' = Some (log ++ ops)
    /\ count_calls is_ClearRect ops = 1%nat
    /\ count_calls is_Stroke ops = connection_count w'
    /\ count_calls is_Fill ops = length (particles w')
    /\ length ops
       = (5 + 5 * connection_count w' + 7 * length (particles w'))%nat.
Proof.
  rewrite animate_Some. cbv zeta. eexists _, _.
  split; [reflexivity|]. split; [reflexivity|].
  set (w' := tick_state cfg w).
  rewrite (connection_count_same_field w') by done.
  change (particles (set_pending _ (set_ctx _ w'))) with (particles w').
  destruct (count_connection_ops w') as (Hs & Hf & Hc & Hl).
  destruct (count_particle_ops w') as (Hs' & Hf' & Hc' & Hl').
  rewrite !count_calls_app, !length_app, Hs, Hf, Hc, Hl, Hs', Hf', Hc', Hl'.
  simpl. lia.
Qed.

End Calls.


(** ** The connections of the field *)

Lemma sum_list_triangle (f : nat -> nat) (a k : nat) :
  (forall i, (a <= i < a + k)%nat -> (f i <= a + k - S i)%nat) ->
  (2 * sum_list (f <$> seq a k) <= k * (k - 1))%nat.
Proof.
  revert a. induction k as [|k IH]; intros a Hf; [simpl; lia|].
  rewrite <- cons_seq, fmap_cons. simpl sum_list.
  pose proof (Hf a ltac:(lia)) as Ha.
  pose proof (IH (S a) ltac:(intros i Hi; specialize (Hf i); lia)) as Hk.
  destruct k; simpl in *; nia.
Qed.

Lemma lookup_total_seq {A} `{!Inhabited A} (l : list A) :
  (l !!!.) <$> seq 0 (length l) = l.
Proof.
  pose proof (lookup_total_seq_drop l 0) as H.
  by rewrite Nat.sub_0_r, drop_0 in H.
Qed.

Lemma self_not_in_drop (ps : list nat) i :
  NoDup ps -> (i < length ps)%nat -> ps !!! i ∉ drop (S i) ps.
Proof.
  intros Hnd Hi.
  destruct (lookup_lt_is_Some_2 ps i Hi) as [l Hl].
  rewrite (list_lookup_total_correct _ _ _ Hl).
  rewrite <- (take_drop_middle ps i l Hl) in Hnd.
  apply NoDup_app in Hnd as (_ & _ & Hnd).
  by apply NoDup_cons in Hnd as [Hnotin _].
Qed.

Lemma only_connections_alpha p p' :
  only_connections p p' -> Particle.alpha p' = Particle.alpha p.
Proof. unfold only_connections. intros ->. by destruct p. Qed.

Section Links.
Variable cfg : Config.

Lemma length_near h a bs : (length (near cfg h a bs) <= length bs)%nat.
Proof. unfold near. rewrite length_fmap. apply length_filter. Qed.

(** X6.  [updateConnections()] records at most one connection for each
    unordered pair of particles of the field: with [n] particles there are
    at most [n (n - 1) / 2] connections, whatever their positions. *)
Theorem updateConnections_count_bound (w : World) :
  valid w ->
  let n := length (particles w) in
  (2 * connection_count (ParticleSystem.updateConnections cfg w)
   <= n * (n - 1))%nat.
Proof.
  intros Hv. cbv zeta. unfold connection_count.
  rewrite updateConnections_particles.
  rewrite <- (lookup_total_seq (particles w)) at 1.
  rewrite <- list_fmap_compose.
  apply sum_list_triangle. intros i Hi. simpl.
  rewrite updateConnections_connections by (done || lia).
  etrans; [apply length_near|]. rewrite length_drop. lia.
Qed.

Lemma updateConnections_links w l c :
  valid w -> l ∈ particles w ->
  c ∈ Particle.connections (deref l (ParticleSystem.updateConnections cfg w)) ->
  Connection.particle c ∈ particles w
  /\ Connection.particle c <> l
  /\ Connection.distance c = dist (heap w) l (Connection.particle c)
  /\ 0 <= Connection.distance c < connectionDistance cfg.
Proof.
  intros Hv Hl Hc.
  apply list_elem_of_lookup in Hl as [i Hi].
  pose proof (lookup_lt_Some _ _ _ Hi) as Hlt.
  rewrite <- (list_lookup_total_correct _ _ _ Hi) in *.
  rewrite updateConnections_connections in Hc by done.
  destruct c as [b d]. apply elem_of_near in Hc as (Hb & -> & Hd).
  simpl. split; [|split; [|split]].
  - eapply elem_of_sublist; [done|]. apply sublist_drop.
  - intros ->. by eapply self_not_in_drop; [apply Hv|..].
  - done.
  - split; [apply sqrt_pos|done].
Qed.

Lemma tick_state_deref w l :
  valid w -> l ∈ particles w ->
  only_connections
    (Particle.update cfg (innerWidth w) (innerHeight w)
       (if isMouseOver w
        then pointer_force cfg (mouseX w) (mouseY w) (deref l w)
        else deref l w))
    (deref l (tick_state cfg w)).
Proof.
  intros Hv Hl. unfold tick_state.
  set (w1 := ParticleSystem.applyMouseForces cfg w).
  assert (Hv1 : valid w1) by by apply applyMouseForces_valid.
  assert (Hl1 : l ∈ particles w1)
    by (unfold w1; by rewrite applyMouseForces_particles).
  destruct (updateConnections_frame cfg (ParticleSystem.step cfg w1)) as [_ [_ Hoc]].
  specialize (Hoc l). fold (deref l (ParticleSystem.step cfg w1)) in Hoc.
  rewrite step_deref in Hoc by done.
  replace (innerWidth w1) with (innerWidth w) in Hoc
    by (unfold w1; rewrite applyMouseForces_frame; by destruct w).
  replace (innerHeight w1) with (innerHeight w) in Hoc
    by (unfold w1; rewrite applyMouseForces_frame; by destruct w).
  unfold w1 in Hoc. by rewrite applyMouseForces_deref in Hoc.
Qed.

(** X7.  After the state part of a tick, every connection of a particle
    of the field leads to another particle that is also still in the
    field; the recorded distance is the current distance of the two, not
    negative and below [connectionDistance]; the particle is visible; so
    the opacity that [drawConnections()] sets for the line is positive,
    and the line ends at a particle that is drawn. *)
Theorem tick_connections_are_live (w : World) (l : loc) (c : Connection.t) :
  valid w ->
  let w' := tick_state cfg w in
  l ∈ particles w' ->
  c ∈ Particle.connections (deref l w') ->
  Connection.particle c ∈ particles w'
  /\ Connection.particle c <> l
  /\ Connection.distance c = dist (heap w') l (Connection.particle c)
  /\ 0 <= Connection.distance c < connectionDistance cfg
  /\ 0 < Particle.alpha (deref l w')
  /\ 0 < (1 - Connection.distance c / connectionDistance cfg) * (3 / 10)
         * Particle.alpha (deref l w').
Proof.
  intros Hv. cbv zeta. unfold tick_state.
  set (w1 := ParticleSystem.applyMouseForces cfg w).
  set (w2 := ParticleSystem.step cfg w1).
  assert (Hv1 : valid w1) by by apply applyMouseForces_valid.
  assert (Hv2 : valid w2) by by apply step_valid.
  rewrite updateConnections_particles. intros Hl Hc.
  destruct (updateConnections_links w2 l c Hv2 Hl Hc) as (Hin & Hne & Hd & Hr).
  destruct (updateConnections_frame cfg w2) as [_ Hoc]. fold w2 in Hoc.
  assert (Ha : 0 < Particle.alpha (deref l (ParticleSystem.updateConnections cfg w2))).
  { unfold deref. rewrite (only_connections_alpha _ _ (proj2 Hoc l)).
    fold (deref l w2). unfold w2 in Hl |- *.
    rewrite step_particles in Hl by done.
    apply list_elem_of_filter in Hl as [Hs Hl].
    rewrite step_deref by done.
    unfold survives, Particle.isDead in Hs.
    apply Is_true_true, negb_true_iff, bool_decide_eq_false in Hs. lra. }
  split; [done|]. split; [done|].
  split; [by rewrite (dist_only_connections _ _ _ _ Hoc)|].
  split; [done|]. split; [done|].
  assert (0 <= Connection.distance c / connectionDistance cfg < 1)
    by by apply ratio_in_unit.
  nra.
Qed.

End Links.

Lemma tick_state_w_pair_xy (l : nat) (x0 : R) :
  l ∈ particles w_pair -> deref l w_pair = resting x0 0 1 -> 0 <= x0 <= 800 ->
  Particle.x (deref l (tick_state PARTICLE_CONFIG w_pair)) = x0
  /\ Particle.y (deref l (tick_state PARTICLE_CONFIG w_pair)) = 495 / 10000.
Proof.
  intros Hl Hp Hx.
  destruct (only_connections_xy _ _
              (tick_state_deref PARTICLE_CONFIG w_pair l w_pair_valid Hl))
    as [-> ->].
  change (isMouseOver w_pair) with false. cbv iota. rewrite Hp.
  change (innerWidth w_pair) with 800. change (innerHeight w_pair) with 600.
  destruct (update_x PARTICLE_CONFIG 800 600 (resting x0 0 1)) as [_ Hin].
  destruct (update_y PARTICLE_CONFIG 800 600 (resting x0 0 1)) as [_ Hin'].
  cbv zeta in Hin, Hin'. simpl in Hin, Hin'.
  split.
  - rewrite (proj2 (Hin ltac:(lra))). lra.
  - rewrite (proj2 (Hin' ltac:(lra))). lra.
Qed.

Lemma tick_state_w_pair_particles :
  particles (tick_state PARTICLE_CONFIG w_pair) = [0; 1]%nat.
Proof.
  rewrite tick_state_particles by exact w_pair_valid.
  change (particles w_pair) with [0; 1]%nat.
  apply filter_all_in. intros l Hl.
  assert (Hp : exists x0, deref l w_pair = resting x0 0 1).
  { apply elem_of_cons in Hl as [->|Hl]; [by eexists|].
    apply list_elem_of_singleton in Hl as ->. by eexists. }
  destruct Hp as [x0 ->]. simpl. lra.
Qed.

Lemma tick_state_w_pair_connection :
  Connection.mk 1 10
  ∈ Particle.connections (deref 0 (tick_state PARTICLE_CONFIG w_pair)).
Proof.
  pose proof w_pair_valid as Hv.
  set (w1 := ParticleSystem.step PARTICLE_CONFIG
               (ParticleSystem.applyMouseForces PARTICLE_CONFIG w_pair)).
  assert (Hv1 : valid w1)
    by by apply step_valid, applyMouseForces_valid.
  assert (Hps : particles w1 = [0; 1]%nat).
  { rewrite <- tick_state_w_pair_particles. unfold tick_state.
    by rewrite updateConnections_particles. }
  pose proof (updateConnections_connections PARTICLE_CONFIG w1 0 Hv1
                ltac:(rewrite Hps; simpl; lia)) as H0.
  rewrite Hps in H0. change ([0; 1]%nat !!! 0%nat) with 0%nat in H0.
  change (drop 1 [0; 1]%nat) with [1%nat] in H0.
  unfold tick_state. fold w1. rewrite H0. apply elem_of_near.
  split; [by left|].
  assert (Hd : dist (heap w1) 0 1 = 10).
  { destruct (updateConnections_frame PARTICLE_CONFIG w1) as [_ Hoc].
    rewrite <- (dist_only_connections _ _ 0%nat 1%nat Hoc).
    change (ParticleSystem.updateConnections PARTICLE_CONFIG w1)
      with (tick_state PARTICLE_CONFIG w_pair).
    unfold dist. fold (deref 0 (tick_state PARTICLE_CONFIG w_pair)).
    fold (deref 1 (tick_state PARTICLE_CONFIG w_pair)).
    destruct (tick_state_w_pair_xy 0 0) as [-> ->];
      [by left|done|lra|].
    destruct (tick_state_w_pair_xy 1 10) as [-> ->];
      [by right; left|done|lra|].
    replace ((0 - 10) * (0 - 10)
             + (495 / 10000 - 495 / 10000) * (495 / 10000 - 495 / 10000))
      with (10 * 10) by lra.
    apply sqrt_square. lra. }
  rewrite Hd. split; [done|]. simpl. lra.
Qed.

Lemma tick_connections_are_live_witness :
  valid w_pair
  /\ 0%nat ∈ particles (tick_state PARTICLE_CONFIG w_pair)
  /\ Connection.mk 1 10
     ∈ Particle.connections (deref 0 (tick_state PARTICLE_CONFIG w_pair))
  /\ 1%nat ∈ particles (tick_state PARTICLE_CONFIG w_pair).
Proof.
  assert (Hl : 0%nat ∈ particles (tick_state PARTICLE_CONFIG w_pair))
    by (rewrite tick_state_w_pair_particles; by left).
  split; [exact w_pair_valid|]. split; [exact Hl|].
  split; [exact tick_state_w_pair_connection|].
  exact (proj1 (tick_connections_are_live PARTICLE_CONFIG w_pair 0
                  (Connection.mk 1 10) w_pair_valid Hl
                  tick_state_w_pair_connection)).
Defined.


Lemma updateConnections_count_bound_witness :
  valid w_pair
  /\ (2 * connection_count
            (ParticleSystem.updateConnections PARTICLE_CONFIG w_pair)
      <= length (particles w_pair) * (length (particles w_pair) - 1))%nat.
Proof.
  split; [exact w_pair_valid|].
  exact (updateConnections_count_bound PARTICLE_CONFIG w_pair w_pair_valid).
Defined.

(** ** Objects outside of the field *)

Lemma deref_modify_ne l l' f w : l <> l' -> deref l (modify l' f w) = deref l w.
Proof.
  intros Hne. unfold deref, modify. destruct w. simpl.
  rewrite list_lookup_total_alter_ne; done.
Qed.

Section Untouched.
Variable cfg : Config.

Lemma connect_upto_untouched k w l :
  l ∉ particles w -> (k <= length (particles w))%nat ->
  deref l (connect_upto cfg k w) = deref l w.
Proof.
  intros Hl. induction k as [|k IH]; intros Hk; [done|].
  rewrite connect_upto_S, connect_from_eq, connect_upto_particles.
  rewrite deref_modify_ne; [apply IH; lia|].
  intros ->. apply Hl. apply list_elem_of_lookup_total_2. lia.
Qed.

Lemma updateConnections_untouched w l :
  l ∉ particles w ->
  deref l (ParticleSystem.updateConnections cfg w) = deref l w.
Proof.
  intros Hl. rewrite updateConnections_eq.
  rewrite connect_upto_untouched; [|by destruct w|by destruct w].
  unfold deref. destruct w. simpl in *. by apply alter_all_notin.
Qed.

Lemma tick_state_untouched w l :
  l ∉ particles w -> deref l (tick_state cfg w) = deref l w.
Proof.
  intros Hl. unfold tick_state.
  set (w1 := ParticleSystem.applyMouseForces cfg w).
  assert (Hl1 : l ∉ particles w1)
    by (unfold w1; by rewrite applyMouseForces_particles).
  rewrite updateConnections_untouched.
  2:{ intros Hin. apply Hl1. eapply elem_of_sublist; [done|].
      apply step_particles_sublist. }
  unfold deref at 1. rewrite step_heap, alter_all_notin by done.
  fold (deref l w1). unfold w1. rewrite applyMouseForces_eq.
  destruct (isMouseOver w); [|done].
  unfold deref. destruct w. simpl in *. by apply alter_all_notin.
Qed.

(** X8.  [updateConnections()] starts from nothing: what it records
    depends on the positions only, not on the connections it finds, so a
    second call in a row changes nothing. *)
Theorem updateConnections_idempotent (w : World) :
  valid w ->
  ParticleSystem.updateConnections cfg (ParticleSystem.updateConnections cfg w)
  = ParticleSystem.updateConnections cfg w.
Proof.
  intros Hv.
  set (w1 := ParticleSystem.updateConnections cfg w).
  assert (Hv1 : valid w1) by by apply updateConnections_valid.
  assert (Hps : particles w1 = particles w) by apply updateConnections_particles.
  destruct (updateConnections_frame cfg w) as [_ Hoc]. fold w1 in Hoc.
  destruct (updateConnections_frame cfg w1) as [Hfr Hoc1].
  rewrite Hfr. transitivity (set_heap (heap w1) w1); [|apply set_heap_id].
  f_equal.
  apply list_eq_same_length with (length (heap w1));
    [done|by destruct Hoc1|].
  intros l p2 p1 Hlt H2 H1.
  apply list_lookup_total_correct in H2, H1. subst p1 p2.
  fold (deref l (ParticleSystem.updateConnections cfg w1)). fold (deref l w1).
  destruct (decide (l ∈ particles w)) as [Hin|Hnotin].
  - destruct Hoc1 as [_ Hoc1]. specialize (Hoc1 l).
    unfold only_connections in Hoc1.
    fold (deref l (ParticleSystem.updateConnections cfg w1)) in Hoc1.
    fold (deref l w1) in Hoc1.
    assert (Hc : Particle.connections
                   (deref l (ParticleSystem.updateConnections cfg w1))
                 = Particle.connections (deref l w1)).
    { apply list_elem_of_lookup in Hin as [i Hi].
      pose proof (lookup_lt_Some _ _ _ Hi) as Hlti.
      pose proof (updateConnections_connections cfg w1 i Hv1
                    ltac:(by rewrite Hps)) as E1.
      pose proof (updateConnections_connections cfg w i Hv Hlti) as E0.
      fold w1 in E0. rewrite Hps in E1.
      rewrite (list_lookup_total_correct _ _ _ Hi) in E0, E1.
      rewrite E1, E0. by apply near_only_connections. }
    rewrite Hoc1, Hc. by destruct (deref l w1).
  - apply updateConnections_untouched. by rewrite Hps.
Qed.

End Untouched.

Lemma updateConnections_idempotent_witness :
  valid w_pair
  /\ ParticleSystem.updateConnections PARTICLE_CONFIG
       (ParticleSystem.updateConnections PARTICLE_CONFIG w_pair)
     = ParticleSystem.updateConnections PARTICLE_CONFIG w_pair.
Proof.
  split; [exact w_pair_valid|].
  exact (updateConnections_idempotent PARTICLE_CONFIG w_pair w_pair_valid).
Defined.


(** ** Frames *)

Lemma set_pending_set_ctx k c w :
  set_pending k (set_ctx c w) = set_ctx c (set_pending k w).
Proof. done. Qed.

Section Frames.
Variable cfg : Config.

Lemma applyMouseForces_set_pending k w :
  ParticleSystem.applyMouseForces cfg (set_pending k w)
  = set_pending k (ParticleSystem.applyMouseForces cfg w).
Proof. rewrite !applyMouseForces_eq. simpl. by destruct (isMouseOver w). Qed.

Lemma Array_filter_step_set_pending k ls w :
  Array_filter ls (ParticleSystem.step_callback cfg) (set_pending k w) =
  ((Array_filter ls (ParticleSystem.step_callback cfg) w).1,
   set_pending k (Array_filter ls (ParticleSystem.step_callback cfg) w).2).
Proof.
  revert w. induction ls as [|l ls IH]; intros w; [done|].
  simpl.
  change (modify l _ (set_pending k w))
    with (set_pending k
            (modify l (Particle.update cfg (innerWidth w) (innerHeight w)) w)).
  rewrite IH.
  change (deref l (set_pending k ?w')) with (deref l w').
  by destruct (Array_filter ls _ _).
Qed.

Lemma step_set_pending k w :
  ParticleSystem.step cfg (set_pending k w)
  = set_pending k (ParticleSystem.step cfg w).
Proof.
  unfold ParticleSystem.step. simpl. rewrite Array_filter_step_set_pending.
  by destruct (Array_filter _ _ w).
Qed.

Lemma connect_upto_set_pending n k w :
  connect_upto cfg k (set_pending n w) = set_pending n (connect_upto cfg k w).
Proof.
  induction k as [|k IH]; [done|].
  rewrite !connect_upto_S, IH, !connect_from_eq. done.
Qed.

Lemma updateConnections_set_pending k w :
  ParticleSystem.updateConnections cfg (set_pending k w)
  = set_pending k (ParticleSystem.updateConnections cfg w).
Proof.
  rewrite !updateConnections_eq. simpl. by rewrite <- connect_upto_set_pending.
Qed.

Lemma tick_state_set_pending k w :
  tick_state cfg (set_pending k w) = set_pending k (tick_state cfg w).
Proof.
  unfold tick_state.
  by rewrite applyMouseForces_set_pending, step_set_pending,
    updateConnections_set_pending.
Qed.

Lemma iter_tick_state_set_pending n k w :
  Nat.iter n (tick_state cfg) (set_pending k w)
  = set_pending k (Nat.iter n (tick_state cfg) w).
Proof.
  induction n as [|n IH]; [done|].
  by rewrite !Nat.iter_succ, IH, tick_state_set_pending.
Qed.

Lemma run_callback_Some w log :
  exists ops,
    ParticleSystem.run_callback cfg (set_ctx (Some log) w)
    = set_pending (S (pending w))
        (set_ctx (Some (log ++ ops)) (tick_state cfg w)).
Proof.
  unfold ParticleSystem.run_callback. rewrite animate_Some. cbv zeta.
  by eexists.
Qed.

Lemma iter_run_callback_Some n w log :
  exists ops,
    Nat.iter n (ParticleSystem.run_callback cfg) (set_ctx (Some log) w)
    = set_pending (n + pending w)
        (set_ctx (Some (log ++ ops)) (Nat.iter n (tick_state cfg) w)).
Proof.
  induction n as [|n [ops IH]].
  - exists []. rewrite app_nil_r. simpl. by destruct w.
  - rewrite !Nat.iter_succ, IH.
    set (W := Nat.iter n (tick_state cfg) w).
    rewrite set_pending_set_ctx.
    destruct (run_callback_Some (set_pending (n + pending w) W) (log ++ ops))
      as [ops' ->].
    exists (ops ++ ops'). rewrite tick_state_set_pending, <- app_assoc.
    generalize (tick_state cfg W). intros W'. done.
Qed.

Lemma tick_state_surroundings w : surroundings (tick_state cfg w) = surroundings w.
Proof.
  pose proof (tick_state_frame cfg w) as Hfr. cbv zeta in Hfr.
  rewrite Hfr. done.
Qed.

Lemma iter_tick_state_surroundings n w :
  surroundings (Nat.iter n (tick_state cfg) w) = surroundings w
  /\ ctx (Nat.iter n (tick_state cfg) w) = ctx w
  /\ pending (Nat.iter n (tick_state cfg) w) = pending w.
Proof.
  induction n as [|n (IH1 & IH2 & IH3)]; [done|].
  rewrite Nat.iter_succ, tick_state_surroundings.
  split; [done|].
  pose proof (tick_state_frame cfg (Nat.iter n (tick_state cfg) w)) as Hfr.
  cbv zeta in Hfr. rewrite Hfr. split; [exact IH2|exact IH3].
Qed.

Lemma frame_Some w log :
  ctx w = Some log ->
  exists ops,
    ParticleSystem.frame cfg w
    = set_pending (pending w)
        (set_ctx (Some (log ++ ops))
           (Nat.iter (pending w) (tick_state cfg) w)).
Proof.
  intros Hc. unfold ParticleSystem.frame.
  replace (set_pending 0 w) with (set_ctx (Some log) (set_pending 0 w))
    by (rewrite <- set_pending_set_ctx; by rewrite set_ctx_id).
  destruct (iter_run_callback_Some (pending w) (set_pending 0 w) log)
    as [ops ->].
  exists ops. rewrite iter_tick_state_set_pending.
  change (pending (set_pending 0 w)) with 0%nat. rewrite Nat.add_0_r.
  generalize (Nat.iter (pending w) (tick_state cfg) w). intros W. done.
Qed.

Lemma frame_surroundings w :
  surroundings (ParticleSystem.frame cfg w) = surroundings w.
Proof.
  destruct (ctx w) as [log|] eqn:Hc.
  - destruct (frame_Some w log Hc) as [ops ->].
    destruct (iter_tick_state_surroundings (pending w) w) as [<- _].
    generalize (Nat.iter (pending w) (tick_state cfg) w). intros W. done.
  - by rewrite frame_None.
Qed.

End Frames.


(** ** Runs of events *)

Section Events.
Variable cfg : Config.
Variable I : World -> Prop.
Hypothesis I_field : forall w w',
  heap w' = heap w -> particles w' = particles w ->
  innerWidth w' = innerWidth w -> innerHeight w' = innerHeight w ->
  I w -> I w'.
Hypothesis I_tick : forall w, I w -> I (tick_state cfg w).
Hypothesis I_click : forall x y w, I w -> I (ParticleSystem.createExplosion cfg x y w).
Hypothesis I_resize : forall iw ih w, I w -> I (set_window_size iw ih w).

Lemma handle_preserves w e : I w -> I (handle cfg w e).
Proof.
  intros Hw. destruct e; simpl.
  - by apply frame_preserves.
  - by apply (I_field w).
  - by apply (I_field w).
  - by apply (I_field w).
  - by apply I_click.
  - apply (I_field (set_window_size iw ih w)); [done..|]. by apply I_resize.
Qed.

Lemma events_preserve w es : I w -> I (foldl (handle cfg) w es).
Proof.
  intros Hw. induction es as [|e es IH] using rev_ind; [done|].
  rewrite foldl_snoc. by apply handle_preserves.
Qed.

End Events.

Section Population.
Variable cfg : Config.

Lemma tick_state_oldest_first w : oldest_first w -> oldest_first (tick_state cfg w).
Proof.
  intros Hw. unfold tick_state.
  by apply updateConnections_oldest_first, step_oldest_first,
    applyMouseForces_oldest_first.
Qed.

Lemma tick_state_sublist w : particles (tick_state cfg w) `sublist_of` particles w.
Proof.
  unfold tick_state. rewrite updateConnections_particles.
  etrans; [apply step_particles_sublist|].
  by rewrite applyMouseForces_particles.
Qed.

Lemma tick_state_length w :
  length (heap (tick_state cfg w)) = length (heap w).
Proof.
  unfold tick_state.
  destruct (updateConnections_frame cfg
              (ParticleSystem.step cfg (ParticleSystem.applyMouseForces cfg w)))
    as [_ [-> _]].
  by rewrite step_heap, length_alter_all, applyMouseForces_length.
Qed.

Lemma createExplosion_length_particles x y w :
  (0 < particleCount cfg)%nat ->
  (length (particles (ParticleSystem.createExplosion cfg x y w))
   <= Nat.max (length (particles w)) (particleCount cfg * 2))%nat.
Proof.
  intros Hc. rewrite createExplosion_particles. cbv zeta.
  case_decide as Hd.
  - rewrite length_drop. lia.
  - rewrite length_app, length_seq in *. lia.
Qed.

(** X9.  From [initParticleSystem()] on, through frames, pointer
    events, clicks and resizes in any order, the field never holds more
    than twice [particleCount] particles, each object at most once, and it
    stays ordered from the oldest to the youngest particle.  The count is
    taken to be positive: for a count of zero [slice(-0)] keeps the whole
    array and nothing is capped. *)
Theorem population_stays_capped (getContext : option (list CanvasOp))
    (iw ih : R) (src : nat -> R) (idx : nat) (events : list Event) :
  (0 < particleCount cfg)%nat ->
  let w :=
    foldl (handle cfg)
      (state_of (ParticleSystem.initParticleSystem cfg getContext iw ih src idx))
      events in
  (length (particles w) <= particleCount cfg * 2)%nat
  /\ NoDup (particles w)
  /\ oldest_first w.
Proof.
  intros Hc. cbv zeta.
  set (I := fun w => oldest_first w
                     /\ (length (particles w) <= particleCount cfg * 2)%nat).
  assert (I_field : forall w w',
            heap w' = heap w -> particles w' = particles w ->
            innerWidth w' = innerWidth w -> innerHeight w' = innerHeight w ->
            I w -> I w').
  { unfold I, oldest_first. intros w w' -> -> _ _. done. }
  assert (I_tick : forall w, I w -> I (tick_state cfg w)).
  { intros w [Hof Hlen]. split; [by apply tick_state_oldest_first|].
    pose proof (sublist_length _ _ (tick_state_sublist w)). lia. }
  assert (I_click : forall x y w, I w -> I (ParticleSystem.createExplosion cfg x y w)).
  { intros x y w [Hof Hlen]. split; [by apply createExplosion_oldest_first|].
    pose proof (createExplosion_length_particles x y w Hc). lia. }
  assert (I_resize : forall iw ih w, I w -> I (set_window_size iw ih w)).
  { intros iw' ih' w Hw. exact Hw. }
  assert (Hrun : I (foldl (handle cfg)
                      (state_of (ParticleSystem.initParticleSystem cfg getContext
                                   iw ih src idx)) events)).
  { apply (events_preserve cfg I I_field I_tick I_click I_resize).
    apply (initParticleSystem_establishes cfg I I_field I_tick).
    split; [apply constructor_oldest_first|].
    rewrite constructor_eq. cbv zeta. simpl. rewrite length_seq. lia. }
  destruct Hrun as [Hof Hlen]. split; [done|].
  split; [|done]. by destruct (oldest_first_valid _ Hof).
Qed.

(** X10.  An object that is not in the field is never touched again and
    never comes back, whatever frames, pointer events, clicks and resizes
    follow: the field only ever gains new objects. *)
Theorem removed_particles_stay_removed (w : World) (l : loc)
    (events : list Event) :
  (l < length (heap w))%nat -> (l ∉ particles w) ->
  let w' := foldl (handle cfg) w events in
  (l ∉ particles w') /\ deref l w' = deref l w
  /\ (length (heap w) <= length (heap w'))%nat.
Proof.
  intros Hlt Hl. cbv zeta.
  set (I := fun w' => ((l < length (heap w'))%nat /\ l ∉ particles w')
                      /\ deref l w' = deref l w
                      /\ (length (heap w) <= length (heap w'))%nat).
  assert (Hrun : I (foldl (handle cfg) w events)).
  { apply (events_preserve cfg I).
    - unfold I, deref. intros w1 w2 -> -> _ _. done.
    - intros w1 ([Hlt1 Hl1] & Hd & Hlen). split; [split|split].
      + by rewrite tick_state_length.
      + intros Hin. apply Hl1. eapply elem_of_sublist; [done|].
        apply tick_state_sublist.
      + by rewrite tick_state_untouched.
      + by rewrite tick_state_length.
    - intros x y w1 ([Hlt1 Hl1] & Hd & Hlen).
      assert (Hlen' : length (heap (ParticleSystem.createExplosion cfg x y w1))
                      = (length (heap w1) + explosion_particleCount cfg)%nat).
      { rewrite createExplosion_heap, length_app. unfold burst.
        by rewrite length_fmap, length_seq. }
      split; [split|split].
      + lia.
      + destruct (createExplosion_drop cfg x y w1) as [k ->].
        intros Hin. eapply elem_of_sublist in Hin; [|apply sublist_drop].
        apply elem_of_app in Hin as [Hin|Hin]; [done|].
        apply elem_of_seq in Hin. lia.
      + unfold deref. rewrite createExplosion_heap.
        by rewrite lookup_total_app_l.
      + lia.
    - unfold I, deref. intros iw ih w1. done.
    - unfold I. done. }
  destruct Hrun as ([_ Hl'] & Hd & Hlen). done.
Qed.

End Population.
Lemma population_stays_capped_witness :
  (0 < particleCount PARTICLE_CONFIG)%nat
  /\ (length
        (particles
           (foldl (handle PARTICLE_CONFIG)
              (state_of (ParticleSystem.initParticleSystem PARTICLE_CONFIG
                           (Some []) 800%R 600%R (fun _ => 0%R) 0))
              [Click 400%R 300%R; AnimationFrame; Click 10%R 10%R]))
      <= particleCount PARTICLE_CONFIG * 2)%nat.
Proof.
  assert (Hc : (0 < particleCount PARTICLE_CONFIG)%nat) by (simpl; lia).
  split; [exact Hc|].
  pose proof (population_stays_capped PARTICLE_CONFIG (Some []) 800 600
                (fun _ => 0) 0 [Click 400 300; AnimationFrame; Click 10 10] Hc)
    as H.
  cbv zeta in H. destruct H as [H _]. exact H.
Defined.

Lemma removed_particles_stay_removed_witness :
  (0 < length (heap w_removed))%nat
  /\ (0%nat ∉ particles w_removed)
  /\ 0%nat ∉ particles
               (foldl (handle PARTICLE_CONFIG) w_removed
                  [AnimationFrame; Click 400 300]).
Proof.
  assert (Hlt : (0 < length (heap w_removed))%nat) by (simpl; lia).
  assert (Hl : 0%nat ∉ particles w_removed) by apply not_elem_of_nil.
  split; [exact Hlt|]. split; [exact Hl|].
  pose proof (removed_particles_stay_removed PARTICLE_CONFIG w_removed 0
                [AnimationFrame; Click 400 300] Hlt Hl) as H.
  cbv zeta in H. destruct H as [H _]. exact H.
Defined.


(** ** The animation loop *)

Lemma surroundings_parts w w' :
  surroundings w' = surroundings w ->
  pointer_state w' = pointer_state w
  /\ (canvas_width w' = canvas_width w /\ canvas_height w' = canvas_height w)
  /\ (innerWidth w' = innerWidth w /\ innerHeight w' = innerHeight w)
  /\ (random_src w' = random_src w /\ random_idx w' = random_idx w).
Proof.
  unfold surroundings, pointer_state. intros [=].
  repeat split; congruence.
Qed.

Section Loop.
Variable cfg : Config.

(** X11.  A frame of a system that has a drawing context runs one tick for
    every callback that was pending, one after the other; each of them
    requests the next frame, so that as many callbacks are pending after
    the frame as before; the calls on the context are appended to the
    earlier ones, and nothing but the field is written. *)
Theorem frame_runs_one_tick_per_callback (w : World) (log : list CanvasOp) :
  ctx w = Some log ->
  let w' := ParticleSystem.frame cfg w in
  let ticked := Nat.iter (pending w) (tick_state cfg) w in
  (heap w' = heap ticked /\ particles w' = particles ticked)
  /\ pending w' = pending w
  /\ (exists ops, ctx w' = Some (log ++ ops))
  /\ surroundings w' = surroundings w.
Proof.
  intros Hc. cbv zeta. split; [|split; [|split]].
  - destruct (frame_Some cfg w log Hc) as [ops ->]. done.
  - destruct (frame_Some cfg w log Hc) as [ops ->]. done.
  - destruct (frame_Some cfg w log Hc) as [ops ->]. by exists ops.
  - apply frame_surroundings.
Qed.





Lemma handle_keeps_running w e log :
  ctx w = Some log ->
  pending (handle cfg w e) = pending w
  /\ exists ops, ctx (handle cfg w e) = Some (log ++ ops).
Proof.
  intros Hc. destruct e; simpl.
  - destruct (frame_Some cfg w log Hc) as [ops ->]. split; [done|]. by exists ops.
  - split; [done|]. exists []. by rewrite app_nil_r.
  - split; [done|]. exists []. by rewrite app_nil_r.
  - split; [done|]. exists []. by rewrite app_nil_r.
  - unfold ParticleSystem.click. rewrite createExplosion_eq. cbv zeta.
    split; [done|]. exists []. by rewrite app_nil_r.
  - split; [done|]. exists []. by rewrite app_nil_r.
Qed.

(** X13.  Nothing stops the animation of a system that has a drawing
    context: [stop()] has an empty body, and no frame, pointer event,
    click or resize takes a pending callback away, so the ticks go on in
    every later frame. *)
Theorem stop_does_not_stop_the_animation (w : World) (log : list CanvasOp)
    (events : list Event) :
  ctx w = Some log -> (0 < pending w)%nat ->
  ParticleSystem.stop w = Ok tt w
  /\ let w' := foldl (handle cfg) (state_of (ParticleSystem.stop w)) events in
     (pending w' = pending w /\ (0 < pending w')%nat)
     /\ (exists ops, ctx w' = Some (log ++ ops))
     /\ heap (ParticleSystem.frame cfg w')
        = heap (Nat.iter (pending w) (tick_state cfg) w').
Proof.
  intros Hc Hp. split; [done|]. cbv zeta.
  change (state_of (ParticleSystem.stop w)) with w.
  assert (H : pending (foldl (handle cfg) w events) = pending w
              /\ exists ops, ctx (foldl (handle cfg) w events) = Some (log ++ ops)).
  { induction events as [|e events [IHp [ops IHc]]] using rev_ind.
    - split; [done|]. exists []. by rewrite app_nil_r.
    - rewrite foldl_snoc.
      destruct (handle_keeps_running (foldl (handle cfg) w events) e _ IHc)
        as [Hp' [ops' Hc']].
      split; [lia|]. exists (ops ++ ops'). by rewrite app_assoc. }
  destruct H as [Hp' [ops Hc']].
  split; [split; [done|lia]|]. split; [by exists ops|].
  destruct (frame_Some cfg _ _ Hc') as [ops' ->]. by rewrite Hp'.
Qed.

End Loop.

Lemma frame_runs_one_tick_per_callback_witness :
  ctx w_started_twice = Some []
  /\ particles (ParticleSystem.frame PARTICLE_CONFIG w_started_twice)
     = particles (Nat.iter (pending w_started_twice)
                    (tick_state PARTICLE_CONFIG) w_started_twice)
  /\ pending (ParticleSystem.frame PARTICLE_CONFIG w_started_twice)
     = pending w_started_twice.
Proof.
  assert (Hc : ctx w_started_twice = Some []) by reflexivity.
  split; [exact Hc|].
  pose proof (frame_runs_one_tick_per_callback PARTICLE_CONFIG w_started_twice
                [] Hc) as H.
  cbv zeta in H. destruct H as ([_ H1] & H2 & _).
  split; [exact H1|exact H2].
Defined.


Lemma stop_does_not_stop_the_animation_witness :
  ctx w_started_twice = Some []
  /\ (0 < pending w_started_twice)%nat
  /\ (0 < pending (foldl (handle PARTICLE_CONFIG)
                     (state_of (ParticleSystem.stop w_started_twice))
                     [AnimationFrame; Mouseleave; AnimationFrame]))%nat.
Proof.
  assert (Hc : ctx w_started_twice = Some []) by reflexivity.
  assert (Hp : (0 < pending w_started_twice)%nat) by (simpl; lia).
  split; [exact Hc|]. split; [exact Hp|].
  pose proof (stop_does_not_stop_the_animation PARTICLE_CONFIG w_started_twice
                [] [AnimationFrame; Mouseleave; AnimationFrame] Hc Hp) as H.
  cbv zeta in H. destruct H as (_ & [_ H] & _). exact H.
Defined.


(** ** Frames, clicks and the viewport *)

Section Back_into_view.
Variable cfg : Config.

Lemma tick_state_brings_into_viewport w :
  valid w -> 0 <= innerWidth w -> 0 <= innerHeight w ->
  in_viewport (innerWidth w) (innerHeight w) (tick_state cfg w).
Proof.
  intros Hv HW HH.
  destruct (surroundings_parts _ _ (tick_state_surroundings cfg w))
    as (_ & _ & [EW EH] & _).
  split; [by apply tick_state_valid|]. split; [done|]. split; [done|].
  intros l Hl. unfold in_bounds. rewrite EW, EH.
  assert (Hl0 : l ∈ particles w)
    by (eapply elem_of_sublist; [done|apply tick_state_sublist]).
  destruct (only_connections_xy _ _ (tick_state_deref cfg w l Hv Hl0))
    as [-> ->].
  by apply update_in_viewport.
Qed.

Lemma iter_tick_state_valid n w : valid w -> valid (Nat.iter n (tick_state cfg) w).
Proof.
  intros Hv. induction n as [|n IH]; [done|].
  rewrite Nat.iter_succ. by apply tick_state_valid.
Qed.

(** X14.  A frame that runs a tick leaves every particle of the field
    inside the window as it is then, wherever the particles were before:
    outside after a resize to a smaller window, or created outside by a
    click there. *)
Theorem frame_brings_particles_into_viewport (w : World)
    (log : list CanvasOp) :
  valid w -> ctx w = Some log -> (0 < pending w)%nat ->
  0 <= innerWidth w -> 0 <= innerHeight w ->
  in_viewport (innerWidth w) (innerHeight w) (ParticleSystem.frame cfg w).
Proof.
  intros Hv Hc Hp HW HH.
  destruct (frame_Some cfg w log Hc) as [ops ->].
  destruct (pending w) as [|n] eqn:Hn; [lia|].
  rewrite Nat.iter_succ.
  set (W := Nat.iter n (tick_state cfg) w).
  assert (HvW : valid W) by by apply iter_tick_state_valid.
  destruct (iter_tick_state_surroundings cfg n w) as (Hs & _).
  destruct (surroundings_parts _ _ Hs) as (_ & _ & [EW EH] & _). fold W in EW, EH.
  pose proof (tick_state_brings_into_viewport W HvW ltac:(by rewrite EW)
                ltac:(by rewrite EH)) as Hin.
  rewrite EW, EH in Hin.
  revert Hin. generalize (tick_state cfg W). intros W' Hin.
  by apply (in_viewport_same_field _ _ W').
Qed.

End Back_into_view.
Lemma w_outside_valid : valid w_outside.
Proof.
  split; simpl.
  - apply NoDup_singleton.
  - repeat constructor.
Qed.

Lemma frame_brings_particles_into_viewport_witness :
  valid w_outside /\ ctx w_outside = Some [] /\ (0 < pending w_outside)%nat
  /\ 0 <= innerWidth w_outside /\ 0 <= innerHeight w_outside
  /\ in_viewport (innerWidth w_outside) (innerHeight w_outside)
       (ParticleSystem.frame PARTICLE_CONFIG w_outside).
Proof.
  assert (Hc : ctx w_outside = Some []) by reflexivity.
  assert (Hp : (0 < pending w_outside)%nat) by (simpl; lia).
  assert (HW : 0 <= innerWidth w_outside) by (simpl; lra).
  assert (HH : 0 <= innerHeight w_outside) by (simpl; lra).
  split; [exact w_outside_valid|]. split; [exact Hc|]. split; [exact Hp|].
  split; [exact HW|]. split; [exact HH|].
  exact (frame_brings_particles_into_viewport PARTICLE_CONFIG w_outside []
           w_outside_valid Hc Hp HW HH).
Defined.

(** ** The pointer *)

Section Pointer_events.
Variable cfg : Config.

(** X15.  Only the pointer listeners write what the system knows of the
    pointer: a [mousemove] stores the new position, keeps the one before
    as the last position and marks the pointer as present; [mouseleave]
    and [mouseenter] only change the mark and keep the position, so that
    a [mouseenter] before any [mousemove] leaves the pointer at the
    origin; frames, clicks and resizes change nothing of it. *)
Theorem pointer_follows_pointer_events (w : World) (e : Event) :
  pointer_state (handle cfg w e)
  = match e with
    | Mousemove cx cy => (cx, cy, true, (mouseX w, mouseY w))
    | Mouseleave => (mouseX w, mouseY w, false, (lastMouseX w, lastMouseY w))
    | Mouseenter => (mouseX w, mouseY w, true, (lastMouseX w, lastMouseY w))
    | AnimationFrame | Click _ _ | Resize _ _ => pointer_state w
    end.
Proof.
  destruct e; simpl; try done.
  - by destruct (surroundings_parts _ _ (frame_surroundings cfg w)) as [-> _].
  - unfold ParticleSystem.click. rewrite createExplosion_eq. done.
Qed.

(** X16.  The forces of a tick act from the pointer as the listeners
    left it: after a [mousemove] to [(x, y)] every particle of the field
    gets the force of a pointer at [(x, y)] before it moves; after a
    [mouseleave] none gets a force; after a [mouseenter] the force comes
    from the position stored before.  In each case the object after the
    tick is the updated one, up to its connections. *)
Theorem pointer_events_steer_the_forces (w : World) (l : loc) (x y : R) :
  valid w -> l ∈ particles w ->
  let W := innerWidth w in
  let H := innerHeight w in
  only_connections
    (Particle.update cfg W H (pointer_force cfg x y (deref l w)))
    (deref l (tick_state cfg (ParticleSystem.mousemove x y w)))
  /\ only_connections
       (Particle.update cfg W H (deref l w))
       (deref l (tick_state cfg (ParticleSystem.mouseleave w)))
  /\ only_connections
       (Particle.update cfg W H
          (pointer_force cfg (mouseX w) (mouseY w) (deref l w)))
       (deref l (tick_state cfg (ParticleSystem.mouseenter w))).
Proof.
  intros Hv Hl. cbv zeta. split; [|split].
  - exact (tick_state_deref cfg (ParticleSystem.mousemove x y w) l Hv Hl).
  - exact (tick_state_deref cfg (ParticleSystem.mouseleave w) l Hv Hl).
  - exact (tick_state_deref cfg (ParticleSystem.mouseenter w) l Hv Hl).
Qed.

(** X17.  A particle that sits exactly under the pointer is pushed to the
    right with the full repulsion force: the distance is zero, and
    [Math.atan2(0, 0)] is [0]. *)
Theorem pointer_on_particle_pushes_right (w : World) (l : loc) :
  valid w -> l ∈ particles w -> isMouseOver w = true ->
  mouseX w = Particle.x (deref l w) -> mouseY w = Particle.y (deref l w) ->
  0 < mouse_repulsionRadius cfg ->
  deref l (ParticleSystem.applyMouseForces cfg w)
  = Particle.applyForce (mouse_repulsionForce cfg) 0 (deref l w).
Proof.
  intros Hv Hl Hover Hx Hy Hr.
  rewrite applyMouseForces_deref by done. rewrite Hover, Hx, Hy.
  unfold pointer_force.
  replace (Particle.x (deref l w) - Particle.x (deref l w)) with 0 by lra.
  replace (Particle.y (deref l w) - Particle.y (deref l w)) with 0 by lra.
  replace (0 * 0 + 0 * 0) with 0 by lra. rewrite sqrt_0.
  rewrite bool_decide_eq_true_2 by done.
  assert (Ha : atan2 0 0 = 0).
  { unfold atan2. rewrite !bool_decide_eq_false_2 by lra. done. }
  rewrite Ha, cos_0, sin_0. f_equal; field; lra.
Qed.

(** X18.  The change of velocity that the pointer gives to a particle at
    the distance [d] has the length [repulsionForce * (1 - d / R)] inside
    the repulsion radius [R] and [attractionForce * (d / A)] between that
    and the attraction radius [A], whatever the direction. *)
Theorem pointer_force_magnitude (mx my : R) (p : Particle.t) :
  let dx := mx - Particle.x p in
  let dy := my - Particle.y p in
  let d := sqrt (dx * dx + dy * dy) in
  let p' := pointer_force cfg mx my p in
  let dvx := Particle.vx p' - Particle.vx p in
  let dvy := Particle.vy p' - Particle.vy p in
  (d < mouse_repulsionRadius cfg ->
     dvx * dvx + dvy * dvy
     = (mouse_repulsionForce cfg * (1 - d / mouse_repulsionRadius cfg))²)
  /\ (~ d < mouse_repulsionRadius cfg -> d < mouse_attractionRadius cfg ->
        dvx * dvx + dvy * dvy
        = (mouse_attractionForce cfg * (d / mouse_attractionRadius cfg))²)
  /\ (~ d < mouse_repulsionRadius cfg -> ~ d < mouse_attractionRadius cfg ->
        dvx = 0 /\ dvy = 0).
Proof.
  cbv zeta. unfold pointer_force.
  set (dx := mx - Particle.x p). set (dy := my - Particle.y p).
  set (d := sqrt (dx * dx + dy * dy)).
  pose proof (sin2_cos2 (atan2 dy dx)) as Htrig. unfold Rsqr in *.
  split; [|split].
  - intros Hd. rewrite bool_decide_eq_true_2 by done.
    set (f := mouse_repulsionForce cfg * (1 - d / mouse_repulsionRadius cfg)).
    unfold Particle.applyForce. simpl.
    transitivity (f * f * (sin (atan2 dy dx) * sin (atan2 dy dx)
                           + cos (atan2 dy dx) * cos (atan2 dy dx)));
      [ring|rewrite Htrig; ring].
  - intros Hnr Hd. rewrite bool_decide_eq_false_2 by done.
    rewrite bool_decide_eq_true_2 by done.
    set (f := mouse_attractionForce cfg * (d / mouse_attractionRadius cfg)).
    unfold Particle.applyForce. simpl.
    transitivity (f * f * (sin (atan2 dy dx) * sin (atan2 dy dx)
                           + cos (atan2 dy dx) * cos (atan2 dy dx)));
      [ring|rewrite Htrig; ring].
  - intros Hnr Hna. rewrite !bool_decide_eq_false_2 by done. lra.
Qed.

End Pointer_events.

Lemma pointer_events_steer_the_forces_witness :
  valid w_pair /\ 0%nat ∈ particles w_pair
  /\ only_connections
       (Particle.update PARTICLE_CONFIG (innerWidth w_pair) (innerHeight w_pair)
          (pointer_force PARTICLE_CONFIG 3 4 (deref 0 w_pair)))
       (deref 0 (tick_state PARTICLE_CONFIG (ParticleSystem.mousemove 3 4 w_pair))).
Proof.
  assert (Hl : 0%nat ∈ particles w_pair) by (by left).
  split; [exact w_pair_valid|]. split; [exact Hl|].
  pose proof (pointer_events_steer_the_forces PARTICLE_CONFIG w_pair 0 3 4
                w_pair_valid Hl) as H.
  cbv zeta in H. destruct H as [H _]. exact H.
Defined.

Lemma pointer_on_particle_pushes_right_witness :
  valid (ParticleSystem.mouseenter w_pair)
  /\ 0%nat ∈ particles (ParticleSystem.mouseenter w_pair)
  /\ isMouseOver (ParticleSystem.mouseenter w_pair) = true
  /\ 0 < mouse_repulsionRadius PARTICLE_CONFIG
  /\ deref 0 (ParticleSystem.applyMouseForces PARTICLE_CONFIG
                (ParticleSystem.mouseenter w_pair))
     = Particle.applyForce (mouse_repulsionForce PARTICLE_CONFIG) 0
         (deref 0 (ParticleSystem.mouseenter w_pair)).
Proof.
  assert (Hv : valid (ParticleSystem.mouseenter w_pair)) by exact w_pair_valid.
  assert (Hl : 0%nat ∈ particles (ParticleSystem.mouseenter w_pair)) by (by left).
  assert (Hr : 0 < mouse_repulsionRadius PARTICLE_CONFIG) by (simpl; lra).
  split; [exact Hv|]. split; [exact Hl|]. split; [reflexivity|].
  split; [exact Hr|].
  exact (pointer_on_particle_pushes_right PARTICLE_CONFIG
           (ParticleSystem.mouseenter w_pair) 0 Hv Hl eq_refl eq_refl eq_refl Hr).
Defined.


(** ** The size of the canvas *)

Section Canvas.
Variable cfg : Config.

Lemma run_callback_surroundings w :
  surroundings (ParticleSystem.run_callback cfg w) = surroundings w.
Proof.
  destruct (ctx w) as [log|] eqn:Hc.
  - destruct (run_callback_Some cfg w log) as [ops E].
    rewrite (set_ctx_id w (Some log) Hc) in E. rewrite E.
    rewrite <- (tick_state_surroundings cfg w).
    generalize (tick_state cfg w). intros W. done.
  - unfold ParticleSystem.run_callback. by rewrite animate_None.
Qed.

Lemma start_state_of w :
  state_of (ParticleSystem.start cfg w)
  = ParticleSystem.run_callback cfg (ParticleSystem.handleResize w).
Proof.
  unfold ParticleSystem.start. by erewrite bind_Ok by reflexivity.
Qed.

Lemma handle_canvas_fits_window w e :
  canvas_fits_window w -> canvas_fits_window (handle cfg w e).
Proof.
  intros Hfit. destruct e; simpl; try done.
  - unfold canvas_fits_window in *.
    destruct (surroundings_parts _ _ (frame_surroundings cfg w))
      as (_ & [-> ->] & [-> ->] & _).
    done.
  - unfold ParticleSystem.click. rewrite createExplosion_eq. done.
Qed.

(** X19.  [start()] gives the canvas the size of the window before the
    first tick, also when the tick then fails for want of a drawing
    context, and the [resize] listener keeps it so: from
    [initParticleSystem()] on, through frames, pointer events, clicks and
    resizes, the canvas has the size of the window, which is what every
    tick clears. *)
Theorem canvas_always_fits_window (getContext : option (list CanvasOp))
    (iw ih : R) (src : nat -> R) (idx : nat) (events : list Event) :
  canvas_fits_window
    (foldl (handle cfg)
       (state_of (ParticleSystem.initParticleSystem cfg getContext iw ih src idx))
       events).
Proof.
  induction events as [|e events IH] using rev_ind.
  - simpl. unfold ParticleSystem.initParticleSystem.
    rewrite start_state_of. unfold canvas_fits_window.
    destruct (surroundings_parts _ _
                (run_callback_surroundings
                   (ParticleSystem.handleResize
                      (ParticleSystem.constructor cfg getContext 300 150 iw ih
                         src idx))))
      as (_ & [-> ->] & [-> ->] & _).
    done.
  - rewrite foldl_snoc. by apply handle_canvas_fits_window.
Qed.

End Canvas.

(** ** What an explosion leaves alone *)

Section Rest.
Variable cfg : Config.

(** X20.  [createExplosion(x, y)] writes no object that existed before,
    puts nothing into the field but particles that were in it and the new
    ones, makes six draws of [Math.random()] for each new particle, and
    leaves the pointer, the drawing context, the sizes and the pending
    callbacks as they were. *)
Theorem createExplosion_leaves_the_rest (x y : R) (w : World) :
  let n := explosion_particleCount cfg in
  let w' := ParticleSystem.createExplosion cfg x y w in
  (forall l, (l < length (heap w))%nat -> deref l w' = deref l w)
  /\ (forall l, l ∈ particles w' ->
        l ∈ particles w
        \/ (length (heap w) <= l < length (heap w) + n)%nat)
  /\ random_idx w' = (random_idx w + 6 * n)%nat
  /\ pointer_state w' = pointer_state w
  /\ ctx w' = ctx w
  /\ pending w' = pending w
  /\ (canvas_width w' = canvas_width w /\ canvas_height w' = canvas_height w)
  /\ (innerWidth w' = innerWidth w /\ innerHeight w' = innerHeight w).
Proof.
  cbv zeta. split; [|split].
  - intros l Hl. unfold deref. rewrite createExplosion_heap.
    by rewrite lookup_total_app_l.
  - intros l Hl. destruct (createExplosion_drop cfg x y w) as [k Hk].
    rewrite Hk in Hl. eapply elem_of_sublist in Hl; [|apply sublist_drop].
    apply elem_of_app in Hl as [Hl|Hl]; [by left|].
    apply elem_of_seq in Hl. right. lia.
  - rewrite createExplosion_eq. done.
Qed.

End Rest.

(** ** The first particles *)

Section First.
Variable cfg : Config.

Lemma constructor_life_decay getContext cw ch iw ih src idx l :
  (forall i, 0 <= src i < 1) ->
  let w := ParticleSystem.constructor cfg getContext cw ch iw ih src idx in
  l ∈ particles w ->
  Particle.life (deref l w) = 1
  /\ 5 / 1000 <= Particle.decay (deref l w) < 10 / 1000.
Proof.
  intros Hsrc. cbv zeta. intros Hl.
  assert (Hlt : (l < particleCount cfg)%nat).
  { rewrite constructor_eq in Hl. cbv zeta in Hl. simpl in Hl.
    apply elem_of_seq in Hl. lia. }
  rewrite constructor_deref by done.
  unfold initial_particle, Particle.constructor.
  cbn [Particle.life Particle.decay]. split; [done|].
  match goal with |- context [src ?k * _] => pose proof (Hsrc k) end.
  lra.
Qed.

(** X21.  The particles that the constructor makes all live for more than
    a hundred ticks and for less than two hundred: when ticks follow the
    construction with no event between them, the field is complete for
    the first hundred ticks and empty from the two hundredth on.  The
    lives are counted in exact arithmetic. *)
Theorem first_particles_die_out (getContext : option (list CanvasOp))
    (cw ch iw ih : R) (src : nat -> R) (idx k : nat) :
  (forall i, 0 <= src i < 1) ->
  let w := ParticleSystem.constructor cfg getContext cw ch iw ih src idx in
  ((k <= 100)%nat ->
     particles (Nat.iter k (tick_state cfg) w) = seq 0 (particleCount cfg))
  /\ ((200 <= k)%nat -> particles (Nat.iter k (tick_state cfg) w) = []).
Proof.
  intros Hsrc. cbv zeta.
  set (w := ParticleSystem.constructor cfg getContext cw ch iw ih src idx).
  assert (Hv : valid w) by apply oldest_first_valid, constructor_oldest_first.
  assert (Hps : particles w = seq 0 (particleCount cfg)).
  { unfold w. rewrite constructor_eq. done. }
  assert (H100 : INR 100 = 100).
  { rewrite INR_IZR_INZ. by replace (Z.of_nat 100) with 100%Z by lia. }
  assert (H200 : INR 200 = 200).
  { rewrite INR_IZR_INZ. by replace (Z.of_nat 200) with 200%Z by lia. }
  split.
  - rewrite <- Hps. induction k as [|k IH]; intros Hk; [done|].
    specialize (IH ltac:(lia)). rewrite Nat.iter_succ.
    set (wk := Nat.iter k (tick_state cfg) w) in *.
    assert (Hvk : valid wk) by by apply iter_tick_state_valid.
    rewrite tick_state_particles by done. rewrite IH.
    apply filter_all_in. intros l Hl.
    destruct (constructor_life_decay getContext cw ch iw ih src idx l Hsrc Hl)
      as [Hlife Hdecay]. fold w in Hlife, Hdecay.
    destruct (life_after_ticks cfg w l _ k Hv Hlife eq_refl) as [_ Hk'].
    fold wk in Hk'. rewrite <- IH in Hl.
    destruct (Hk' Hl) as (_ & -> & -> & _).
    pose proof (le_INR (S k) 100 Hk) as Hle. rewrite H100, S_INR in Hle.
    pose proof (pos_INR k). nra.
  - intros Hk.
    destruct (particles (Nat.iter k (tick_state cfg) w)) as [|l ls] eqn:E;
      [done|exfalso].
    assert (Hl : l ∈ particles (Nat.iter k (tick_state cfg) w))
      by (rewrite E; by left).
    assert (Hl0 : l ∈ particles w).
    { assert (Hsub : forall n, particles (Nat.iter n (tick_state cfg) w)
                               `sublist_of` particles w).
      { induction n as [|n IHn]; [done|]. rewrite Nat.iter_succ.
        etrans; [apply tick_state_sublist|done]. }
      eapply elem_of_sublist; [done|apply Hsub]. }
    destruct (constructor_life_decay getContext cw ch iw ih src idx l Hsrc Hl0)
      as [Hlife Hdecay]. fold w in Hlife, Hdecay.
    destruct (life_after_ticks cfg w l _ k Hv Hlife eq_refl) as [_ Hk'].
    destruct (Hk' Hl) as (_ & _ & _ & Hpos). specialize (Hpos ltac:(lia)).
    pose proof (le_INR 200 k Hk) as Hle. rewrite H200 in Hle. nra.
Qed.

(** X22.  On an empty field a tick that has a drawing context still
    clears the canvas, sets up and restores the style of the lines, and
    requests the next frame; it draws nothing and leaves the state as it
    is. *)
Theorem animate_on_empty_field (w : World) (log : list CanvasOp) :
  particles w = [] ->
  ParticleSystem.animate cfg (set_ctx (Some log) w)
  = Ok tt
      (set_pending (S (pending w))
         (set_ctx
            (Some (log ++ [ClearRect 0 0 (canvas_width w) (canvas_height w);
                           Save; SetStrokeStyle "rgba(139, 115, 85, 0.1)";
                           SetLineWidth (5 / 10); Restore]))
            w)).
Proof.
  intros Hps. rewrite animate_Some. cbv zeta.
  assert (Ht : tick_state cfg w = w).
  { unfold tick_state. rewrite applyMouseForces_eq, Hps.
    assert (E1 : (if isMouseOver w
                  then set_heap (alter_all (pointer_force cfg (mouseX w) (mouseY w))
                                   [] (heap w)) w
                  else w) = w).
    { destruct (isMouseOver w); [|done]. apply set_heap_id. }
    rewrite E1, step_eq, Hps.
    assert (E2 : set_particles
                   (Array_filter [] (ParticleSystem.step_callback cfg) w).1
                   (set_heap (alter_all
                                (Particle.update cfg (innerWidth w) (innerHeight w))
                                [] (heap w)) w) = w).
    { destruct w. simpl in *. by subst. }
    rewrite E2, updateConnections_eq, Hps. simpl. apply set_heap_id. }
  rewrite Ht. unfold connection_ops, particle_ops. rewrite Hps. done.
Qed.

End First.

Lemma first_particles_die_out_witness :
  (forall i : nat, 0 <= (fun _ : nat => 0) i < 1)
  /\ particles
       (Nat.iter 200 (tick_state PARTICLE_CONFIG)
          (ParticleSystem.constructor PARTICLE_CONFIG (Some []) 300 150 800 600
             (fun _ => 0) 0)) = [].
Proof.
  assert (Hsrc : forall i : nat, 0 <= (fun _ : nat => 0) i < 1)
    by (intros i; simpl; lra).
  split; [exact Hsrc|].
  pose proof (first_particles_die_out PARTICLE_CONFIG (Some []) 300 150 800 600
                (fun _ => 0) 0 200 Hsrc) as H.
  cbv zeta in H. destruct H as [_ H]. exact (H (le_n 200)).
Defined.

Lemma animate_on_empty_field_witness :
  particles w_removed = []
  /\ ParticleSystem.animate PARTICLE_CONFIG (set_ctx (Some []) w_removed)
     = Ok tt
         (set_pending (S (pending w_removed))
            (set_ctx
               (Some ([] ++ [ClearRect 0 0 (canvas_width w_removed)
                               (canvas_height w_removed);
                             Save; SetStrokeStyle "rgba(139, 115, 85, 0.1)";
                             SetLineWidth (5 / 10); Restore]))
               w_removed)).
Proof.
  split; [reflexivity|].
  exact (animate_on_empty_field PARTICLE_CONFIG w_removed [] eq_refl).
Defined.
